(** * ethers-multisend: encoding single transactions and multiSend batches

    A shallow embedding of the two parts of the source: [encodeSingle.ts]
    (module [EncodeSingle]) and the multiSend module that follows it in the
    same file (module [MultiSend]), together with the functions of
    ethers.js v5 that they call (module [Ethers]: [@ethersproject/bytes],
    [bignumber], [solidity], [address] and [abi]) and Keccak-256 (module
    [Keccak]), so that every definition runs on concrete inputs.

    How the data is modelled:
    - hex data and addresses are JavaScript strings and stay [string]s;
      byte arrays are [list byte];
    - an integer ([BigNumberish]: number, numeral or BigNumber) in a field
      of a transaction is the [Z] it denotes; the values handed to the ABI
      coder through [inputValues] keep their JavaScript shape ([Value]),
      since [a || b] tells them apart;
    - an optional or missing property is an [option]; a thrown error is
      [None];
    - [inputValues], an object used as a map, is a [gmap] from names to
      values (own properties only);
    - the ABI coder covers the elementary types ([address], [bool],
      [string], [bytes], [bytesN], [uintN], [intN]), not arrays or tuples;
      text is ASCII; lengths and offsets inside an encoding are safe
      integers of JavaScript, so their conversions ([toNumber], the check
      of [BigNumber.from] on a length the writer itself computed) are not
      modelled as failures.

    The definitions come first; the properties follow. *)

From Stdlib Require Import ZArith NArith List String Ascii Bool Lia DecimalString.
From Stdlib.Strings Require Import Byte.
From stdpp Require Import base option list gmap strings.

Local Open Scope string_scope.
Local Open Scope list_scope.
Local Open Scope Z_scope.

(* ===================================================================== *)
(** ** Keccak-256 (the hash behind selectors and address checksums)      *)
(* ===================================================================== *)

Module Keccak.

Definition mask64 : N := N.ones 64.

Definition rol64 (x n : N) : N :=
  N.land (N.lor (N.shiftl x n) (N.shiftr x (64 - n))) mask64.

Definition roundConstants : list N :=
  [ 0x0000000000000001; 0x0000000000008082; 0x800000000000808A;
    0x8000000080008000; 0x000000000000808B; 0x0000000080000001;
    0x8000000080008081; 0x8000000000008009; 0x000000000000008A;
    0x0000000000000088; 0x0000000080008009; 0x000000008000000A;
    0x000000008000808B; 0x800000000000008B; 0x8000000000008089;
    0x8000000000008003; 0x8000000000008002; 0x8000000000000080;
    0x000000000000800A; 0x800000008000000A; 0x8000000080008081;
    0x8000000000008080; 0x0000000080000001; 0x8000000080008008 ]%N.

(** Rotation offsets, lane [(x, y)] at index [x + 5 * y]. *)
Definition rotationOffsets : list N :=
  [  0;  1; 62; 28; 27;
    36; 44;  6; 55; 20;
     3; 10; 43; 25; 39;
    41; 45; 15; 21;  8;
    18;  2; 61; 56; 14 ]%N.

Definition lane (st : list N) (x y : nat) : N :=
  nth (x mod 5 + 5 * (y mod 5))%nat st 0%N.

Definition coords : list (nat * nat) :=
  y ← seq 0 5; x ← seq 0 5; [(x, y)].

Definition theta (st : list N) : list N :=
  let C x := fold_right N.lxor 0%N (map (lane st x) (seq 0 5)) in
  let D x := N.lxor (C (x + 4)%nat) (rol64 (C (x + 1)%nat) 1) in
  map (fun '(x, y) => N.lxor (lane st x y) (D x)) coords.

Definition rhoPi (st : list N) : list N :=
  map (fun '(x, y) =>
         let x0 := ((x + 3 * y) mod 5)%nat in
         rol64 (lane st x0 x) (nth (x0 + 5 * x)%nat rotationOffsets 0%N))
      coords.

Definition chi (st : list N) : list N :=
  map (fun '(x, y) =>
         N.lxor (lane st x y)
                (N.land (N.lxor (lane st (x + 1) y) mask64) (lane st (x + 2) y)))
      coords.

Definition iota (rc : N) (st : list N) : list N :=
  match st with
  | [] => []
  | l :: rest => N.lxor l rc :: rest
  end.

Definition round (st : list N) (rc : N) : list N :=
  iota rc (chi (rhoPi (theta st))).

Definition permute (st : list N) : list N :=
  fold_left round roundConstants st.

(** Little-endian lane of eight bytes. *)
Definition laneOfBytes (bs : list N) : N :=
  fold_right (fun b acc => (b + 256 * acc)%N) 0%N bs.

Fixpoint lanesOfBytes (n : nat) (bs : list N) : list N :=
  match n with
  | O => []
  | S n' => laneOfBytes (firstn 8 bs) :: lanesOfBytes n' (skipn 8 bs)
  end.

Definition rate : nat := 136.

Definition pad (len : nat) : list N :=
  let q := (rate - len mod rate)%nat in
  if (q =? 1)%nat then [0x81%N]
  else 0x01%N :: repeat 0%N (q - 2) ++ [0x80%N].

Definition absorbBlock (st : list N) (block : list N) : list N :=
  let lanes := lanesOfBytes 17 block ++ repeat 0%N 8 in
  permute (zip_with N.lxor st lanes).

Fixpoint absorb (blocks : nat) (st : list N) (msg : list N) : list N :=
  match blocks with
  | O => st
  | S n => absorb n (absorbBlock st (firstn rate msg)) (skipn rate msg)
  end.

Definition outputByte (st : list N) (i : nat) : byte :=
  let l := nth (i / 8)%nat st 0%N in
  default x00 (Byte.of_N (N.land (N.shiftr l (8 * N.of_nat (i mod 8))) 255)).

Definition keccak256 (msg : list byte) : list byte :=
  let m := map Byte.to_N msg in
  let padded := m ++ pad (length m) in
  let st := absorb (length padded / rate) (repeat 0%N 25) padded in
  map (outputByte st) (seq 0 32).

End Keccak.

(* ===================================================================== *)
(** ** The ethers.js functions the two source files call                 *)
(* ===================================================================== *)

Module Ethers.

(** *** [@ethersproject/bytes]: hex strings and byte arrays *)

Definition isHexDigit (c : ascii) : bool :=
  let n := N_of_ascii c in
  ((48 <=? n) && (n <=? 57) || (97 <=? n) && (n <=? 102)
   || (65 <=? n) && (n <=? 70))%N.

Definition hexDigitValue (c : ascii) : option N :=
  let n := N_of_ascii c in
  if ((48 <=? n) && (n <=? 57))%N then Some (n - 48)%N
  else if ((97 <=? n) && (n <=? 102))%N then Some (n - 87)%N
  else if ((65 <=? n) && (n <=? 70))%N then Some (n - 55)%N
  else None.

Definition hexDigit (n : N) : ascii :=
  nth (N.to_nat n) (list_ascii_of_string "0123456789abcdef") "0"%char.

(** [isHexString(value)]: the string matches [/^0x[0-9A-Fa-f]*$/]. *)
Definition isHexString (value : string) : bool :=
  match value with
  | String "0" (String "x" hex) => forallb isHexDigit (list_ascii_of_string hex)
  | _ => false
  end.

(** Pairs of hex digits to bytes; [None] on an odd length or a bad digit. *)
Fixpoint hexToBytes (hex : string) : option (list byte) :=
  match hex with
  | EmptyString => Some []
  | String _ EmptyString => None
  | String a (String b rest) =>
      hi ← hexDigitValue a;
      lo ← hexDigitValue b;
      x ← Byte.of_N (16 * hi + lo);
      bs ← hexToBytes rest;
      Some (x :: bs)
  end.

(** [arrayify(value)] on a string: a [0x]-prefixed hex string of even
    length, anything else throws. *)
Definition arrayify (value : string) : option (list byte) :=
  match value with
  | String "0" (String "x" hex) => hexToBytes hex
  | _ => None
  end.

Definition byteHex (b : byte) : string :=
  let n := Byte.to_N b in
  String (hexDigit (n / 16)) (String (hexDigit (n mod 16)) EmptyString).

Definition bytesHex (bs : list byte) : string :=
  String.concat "" (byteHex <$> bs).

(** [hexlify(bytes)]: lower-case hex with the [0x] prefix. *)
Definition hexlify (bs : list byte) : string := "0x" +:+ bytesHex bs.

(** [hexDataLength(data)]: [null] unless [data] is a hex string of even
    length. *)
Definition hexDataLength (data : string) : option Z :=
  if isHexString data && Nat.even (String.length data)
  then Some ((Z.of_nat (String.length data) - 2) / 2)
  else None.


(** [zeroPad]-ed big-endian bytes: the [n] low-order bytes of [z]. *)
Definition byteOfZ (z : Z) : byte := default x00 (Byte.of_N (Z.to_N (z mod 256))).

Definition byteToZ (b : byte) : Z := Z.of_N (Byte.to_N b).

Fixpoint beBytes (n : nat) (z : Z) : list byte :=
  match n with
  | O => []
  | S n' => beBytes n' (z / 256) ++ [byteOfZ z]
  end.

Definition beValue (bs : list byte) : Z :=
  fold_left (fun acc b => acc * 256 + byteToZ b) bs 0.

(** *** JavaScript values handed to the library *)

Inductive Value :=
| VUndefined
| VNull
| VBool (b : bool)
| VNumber (z : Z)        (* a JS number holding an integer *)
| VString (s : string)
| VBigNumber (z : Z).    (* a BigNumber object *)

(** JavaScript truthiness, the test behind [a || b]. *)
Class Truthy (A : Type) := truthy : A → bool.

#[global] Instance truthy_string : Truthy string :=
  fun s => match s with EmptyString => false | _ => true end.

#[global] Instance truthy_Value : Truthy Value :=
  fun v => match v with
           | VUndefined | VNull => false
           | VBool b => b
           | VNumber z => negb (z =? 0)
           | VString s => truthy s
           | VBigNumber _ => true
           end.

(** A [BigNumberish] is the integer it denotes; of its spellings only the
    number [0] is falsy, and [a || 0] denotes [a] whichever it was. *)
#[global] Instance truthy_Z : Truthy Z := fun z => negb (z =? 0).

(** [String.prototype.substr(start)]. *)
Definition substr (start : nat) (s : string) : string :=
  String.substring start (String.length s - start) s.

(** [a || d] where [a] may be [undefined]. *)
Definition js_or {A} `{Truthy A} (a : option A) (d : A) : A :=
  match a with
  | Some x => if truthy x then x else d
  | None => d
  end.

(** *** [@ethersproject/bignumber]: [BigNumber.from] *)

Definition isDecDigit (c : ascii) : bool :=
  let n := N_of_ascii c in ((48 <=? n) && (n <=? 57))%N.

Definition decValue (digits : string) : Z :=
  fold_left (fun acc c => acc * 10 + (Z.of_N (N_of_ascii c) - 48))
            (list_ascii_of_string digits) 0.

Definition hexValue (digits : string) : Z :=
  fold_left (fun acc c => acc * 16 + Z.of_N (default 0%N (hexDigitValue c)))
            (list_ascii_of_string digits) 0.

(** An unsigned numeral: [0x] followed by at least one hex digit, or at
    least one decimal digit. *)
Definition parseUnsigned (s : string) : option Z :=
  match s with
  | String "0" (String c hex) =>
      if (Ascii.eqb c "x" || Ascii.eqb c "X")
         && negb (String.eqb hex "")
         && forallb isHexDigit (list_ascii_of_string hex)
      then Some (hexValue hex)
      else if forallb isDecDigit (list_ascii_of_string s)
           then Some (decValue s) else None
  | EmptyString => None
  | _ => if forallb isDecDigit (list_ascii_of_string s)
         then Some (decValue s) else None
  end.

Definition MAX_SAFE : Z := 0x1fffffffffffff.

Definition BigNumber_from (value : Value) : option Z :=
  match value with
  | VBigNumber z => Some z
  | VNumber z => if (MAX_SAFE <=? z) || (z <=? - MAX_SAFE) then None else Some z
  | VString (String "-" s) => Z.opp <$> parseUnsigned s
  | VString s => parseUnsigned s
  | _ => None
  end.

(** [BigNumber.toTwos(width)]. *)
Definition toTwos (z : Z) (width : Z) : Z :=
  if z <? 0 then Z.lxor (- z) (Z.ones width) + 1 else z.

(** [BigNumber.fromTwos(width)]. *)
Definition fromTwos (z : Z) (width : Z) : Z :=
  if Z.testbit z (width - 1) then - (Z.lxor z (Z.ones width) + 1) else z.

(** *** [@ethersproject/solidity]: [pack] *)

Inductive PackType :=
| PAddress
| PString
| PBytes
| PBool
| PUint (bits : Z)
| PInt (bits : Z)
| PBytesN (size : Z).

(** Text is kept to ASCII: its UTF-8 bytes are its characters. *)
Definition toUtf8Bytes (s : string) : option (list byte) :=
  if forallb (fun c => (N_of_ascii c <? 128)%N) (list_ascii_of_string s)
  then Some (list_byte_of_string s) else None.

Definition toUtf8String (bs : list byte) : option string :=
  if forallb (fun b => (Byte.to_N b <? 128)%N) bs
  then Some (string_of_list_byte bs) else None.

Definition validSize (bits : Z) : bool :=
  (0 <? bits) && (bits <=? 256) && (bits mod 8 =? 0).

(** [_pack(type, value)] outside arrays. A number is brought to two's
    complement and left-padded to its width; [zeroPad] throws when the
    number needs more bytes than that. *)
Definition pack1 (type : PackType) (value : Value) : option (list byte) :=
  match type with
  | PAddress => match value with VString s => arrayify s | _ => None end
  | PString => match value with VString s => toUtf8Bytes s | _ => None end
  | PBytes => match value with VString s => arrayify s | _ => None end
  | PBool => Some [if truthy value then x01 else x00]
  | PUint bits | PInt bits =>
      if validSize bits then
        z ← BigNumber_from value;
        let t := toTwos z bits in
        if (0 <=? t) && (t <? 2 ^ bits)
        then Some (beBytes (Z.to_nat (bits / 8)) t) else None
      else None
  | PBytesN size =>
      if (0 <? size) && (size <=? 32) then
        match value with
        | VString s =>
            bs ← arrayify s;
            if Z.of_nat (length bs) =? size then Some bs else None
        | _ => None
        end
      else None
  end.

(** [pack(types, values)]. *)
Definition pack (types : list PackType) (values : list Value) : option string :=
  if (length types =? length values)%nat then
    tight ← mapM (fun '(t, v) => pack1 t v) (zip types values);
    Some (hexlify (concat tight))
  else None.


(** *** [@ethersproject/address]: [getAddress] *)

Definition toLowerChar (c : ascii) : ascii :=
  let n := N_of_ascii c in
  if ((65 <=? n) && (n <=? 90))%N then ascii_of_N (n + 32) else c.

Definition toUpperChar (c : ascii) : ascii :=
  let n := N_of_ascii c in
  if ((97 <=? n) && (n <=? 122))%N then ascii_of_N (n - 32) else c.

Definition toLowerCase (s : string) : string :=
  string_of_list_ascii (toLowerChar <$> list_ascii_of_string s).

(** The loop of [getChecksumAddress] over the lower-case digits: a letter
    goes to upper case when its nibble of the hash of the digits is 8 or
    more. *)
Definition checksumCase (chars : list ascii) : list ascii :=
  let hashed := Keccak.keccak256 (byte_of_ascii <$> chars) in
  let nibble i :=
    let h := Byte.to_N (nth (i / 2)%nat hashed x00) in
    if Nat.even i then (h / 16)%N else (h mod 16)%N in
  imap (fun i c => if (8 <=? nibble i)%N then toUpperChar c else c) chars.

(** [getChecksumAddress(address)], [address] being [0x] and 40 hex digits. *)
Definition getChecksumAddress (address : string) : string :=
  let chars := list_ascii_of_string (substr 2 (toLowerCase address)) in
  "0x" +:+ string_of_list_ascii (checksumCase chars).

(** The test [/([A-F].*[a-f])|([a-f].*[A-F])/]: letters of both cases. *)
Definition mixedCase (s : string) : bool :=
  let cs := N_of_ascii <$> list_ascii_of_string s in
  existsb (fun n => (65 <=? n) && (n <=? 70))%N cs
  && existsb (fun n => (97 <=? n) && (n <=? 102))%N cs.

(** [getAddress(address)]. The ICAP spelling ([XE..]) is not covered: the
    model rejects it. *)
Definition getAddress (address : string) : option string :=
  let address :=
    if (String.length address =? 40)%nat then "0x" +:+ address else address in
  if isHexString address && (String.length address =? 42)%nat then
    let result := getChecksumAddress address in
    if mixedCase address && negb (String.eqb result address) then None
    else Some result
  else None.

(** *** [@ethersproject/abi]: coders *)

Inductive SolType :=
| TAddress
| TBool
| TString
| TBytes
| TUint (bits : Z)
| TInt (bits : Z)
| TFixedBytes (size : Z).

(** A parameter of a function fragment. Array and tuple types are not
    covered by this model. *)
Record ParamType := { name : string; type : SolType }.

(** [Writer.writeValue]: one left-padded 32-byte word. *)
Definition writeValue (value : Value) : option (list byte) :=
  z ← BigNumber_from value;
  if (0 <=? z) && (z <? 2 ^ 256) then Some (beBytes 32 z) else None.

(** A length or an offset of the writer itself, a safe integer in
    JavaScript, as a word. *)
Definition writeLength (n : nat) : list byte := beBytes 32 (Z.of_nat n).

(** [Writer.writeBytes]: right-padded to a multiple of 32 bytes. *)
Definition writeBytes (bs : list byte) : list byte :=
  bs ++ repeat x00 ((32 - length bs mod 32) mod 32)%nat.

(** [Reader.readBytes(length)]: the reader is the data not read yet; the
    read consumes whole words and fails on a buffer overrun. *)
Definition readBytes (len : nat) (reader : list byte)
  : option (list byte * list byte) :=
  let alignedLength := ((len + 31) / 32 * 32)%nat in
  if (length reader <? alignedLength)%nat then None
  else Some (take len reader, drop alignedLength reader).

Definition readValue (reader : list byte) : option (Z * list byte) :=
  '(bs, rest) ← readBytes 32 reader;
  Some (beValue bs, rest).

(** The interface of [Coder]: whether the encoding goes to the dynamic
    area, [encode] (the bytes written), [decode] (the value read and the
    advanced reader) and [defaultValue]. *)
Record Coder := {
  dynamic : bool;
  encode : Value → option (list byte);
  decode : list byte → option (Value * list byte);
  defaultValue : Value
}.

Definition AddressCoder : Coder := {|
  dynamic := false;
  encode value :=
    match value with
    | VString s => a ← getAddress s; writeValue (VString a)
    | _ => None
    end;
  decode reader :=
    '(z, rest) ← readValue reader;
    if z <? 2 ^ 160 then
      a ← getAddress (hexlify (beBytes 20 z)); Some (VString a, rest)
    else None;
  defaultValue := VString "0x0000000000000000000000000000000000000000"
|}.

Definition BooleanCoder : Coder := {|
  dynamic := false;
  encode value := writeValue (VNumber (if truthy value then 1 else 0));
  decode reader :=
    '(z, rest) ← readValue reader; Some (VBool (negb (z =? 0)), rest);
  defaultValue := VBool false
|}.

Definition encodeDynamicBytes (bs : list byte) : list byte :=
  writeLength (length bs) ++ writeBytes bs.

(** [readBytes(readValue().toNumber(), true)]: the length word, then that
    many bytes. A length past the end of the data fails at the read. *)
Definition decodeDynamicBytes (reader : list byte)
  : option (list byte * list byte) :=
  '(len, rest) ← readValue reader;
  readBytes (Z.to_nat len) rest.

Definition BytesCoder : Coder := {|
  dynamic := true;
  encode value :=
    match value with
    | VString s => encodeDynamicBytes <$> arrayify s
    | _ => None
    end;
  decode reader :=
    '(bs, rest) ← decodeDynamicBytes reader; Some (VString (hexlify bs), rest);
  defaultValue := VString "0x"
|}.

Definition StringCoder : Coder := {|
  dynamic := true;
  encode value :=
    match value with
    | VString s => encodeDynamicBytes <$> toUtf8Bytes s
    | _ => None
    end;
  decode reader :=
    '(bs, rest) ← decodeDynamicBytes reader;
    s ← toUtf8String bs; Some (VString s, rest);
  defaultValue := VString ""
|}.

Definition FixedBytesCoder (size : nat) : Coder := {|
  dynamic := false;
  encode value :=
    match value with
    | VString s =>
        data ← arrayify s;
        if (length data =? size)%nat then Some (writeBytes data) else None
    | _ => None
    end;
  decode reader :=
    '(bs, rest) ← readBytes size reader; Some (VString (hexlify bs), rest);
  defaultValue := VString (hexlify (repeat x00 size))
|}.

(** [NumberCoder(size, signed)], [size] in bytes. *)
Definition NumberCoder (size : Z) (signed : bool) : Coder := {|
  dynamic := false;
  encode value :=
    v ← BigNumber_from value;
    let maxUintValue := Z.ones (size * 8) in
    let bounds := Z.ones (size * 8 - 1) in
    let outOfBounds :=
      if signed then (bounds <? v) || (v <? - (bounds + 1))
      else (v <? 0) || (maxUintValue <? v) in
    if outOfBounds then None
    else
      let v := Z.land (toTwos v (size * 8)) (Z.ones (size * 8)) in
      let v := if signed then toTwos (fromTwos v (size * 8)) 256 else v in
      writeValue (VBigNumber v);
  decode reader :=
    '(z, rest) ← readValue reader;
    let value := Z.land z (Z.ones (size * 8)) in
    let value := if signed then fromTwos value (size * 8) else value in
    Some (VBigNumber value, rest);
  defaultValue := VNumber 0
|}.

(** [AbiCoder._getCoder(param)]. *)
Definition _getCoder (param : ParamType) : option Coder :=
  match type param with
  | TAddress => Some AddressCoder
  | TBool => Some BooleanCoder
  | TString => Some StringCoder
  | TBytes => Some BytesCoder
  | TUint bits =>
      if validSize bits then Some (NumberCoder (bits / 8) false) else None
  | TInt bits =>
      if validSize bits then Some (NumberCoder (bits / 8) true) else None
  | TFixedBytes size =>
      if (0 <? size) && (size <=? 32)
      then Some (FixedBytesCoder (Z.to_nat size)) else None
  end.

(** The tuple coder's [pack]: static parts and offsets first, then the
    dynamic parts; an offset counts from the start of the static area. *)
Fixpoint packHeads (staticLength dynamicOffset : nat)
  (parts : list (bool * list byte)) : list byte :=
  match parts with
  | [] => []
  | (true, bs) :: rest =>
      writeLength (staticLength + dynamicOffset)
      ++ packHeads staticLength (dynamicOffset + length bs) rest
  | (false, bs) :: rest => bs ++ packHeads staticLength dynamicOffset rest
  end.

Definition headLength (part : bool * list byte) : nat :=
  if part.1 then 32%nat else length part.2.

Definition packTails (parts : list (bool * list byte)) : list byte :=
  concat (snd <$> filter (fun p => fst p = true) parts).

Definition abiPack (coders : list Coder) (values : list Value)
  : option (list byte) :=
  if (length coders =? length values)%nat then
    parts ← mapM (fun '(c, v) => bs ← encode c v; Some (dynamic c, bs))
                 (zip coders values);
    let staticLength := sum_list (headLength <$> parts) in
    Some (packHeads staticLength 0 parts ++ packTails parts)
  else None.

(** The tuple coder's [unpack]: [base] is the reader the tuple starts at.
    An error met while decoding a value, which the library keeps inside
    the result until the value is read, fails the whole decoding here. *)
Fixpoint abiUnpack (coders : list Coder) (base reader : list byte)
  : option (list Value) :=
  match coders with
  | [] => Some []
  | coder :: rest =>
      if dynamic coder then
        '(offset, reader') ← readValue reader;
        '(value, _) ← decode coder (drop (Z.to_nat offset) base);
        values ← abiUnpack rest base reader';
        Some (value :: values)
      else
        '(value, reader') ← decode coder reader;
        values ← abiUnpack rest base reader';
        Some (value :: values)
  end.

(** [AbiCoder.encode(types, values)] and [AbiCoder.decode(types, data)]. *)
Definition AbiCoder_encode (types : list ParamType) (values : list Value)
  : option (list byte) :=
  if (length types =? length values)%nat then
    coders ← mapM _getCoder types;
    abiPack coders values
  else None.

Definition AbiCoder_decode (types : list ParamType) (data : list byte)
  : option (list Value) :=
  coders ← mapM _getCoder types;
  abiUnpack coders data data.

(** *** [@ethersproject/abi]: [Interface] *)

Record FunctionFragment := { fname : string; inputs : list ParamType }.

Definition decimal (z : Z) : string := NilZero.string_of_uint (N.to_uint (Z.to_N z)).

Definition typeName (t : SolType) : string :=
  match t with
  | TAddress => "address"
  | TBool => "bool"
  | TString => "string"
  | TBytes => "bytes"
  | TUint bits => "uint" +:+ decimal bits
  | TInt bits => "int" +:+ decimal bits
  | TFixedBytes size => "bytes" +:+ decimal size
  end.

(** [fragment.format()], the signature [name(type,...)]. *)
Definition format (f : FunctionFragment) : string :=
  fname f +:+ "(" +:+ String.concat "," ((fun p => typeName (type p)) <$> inputs f)
  +:+ ")".

(** An [Interface] is its table [functions], keyed by signature. *)
Record Interface := { functions : gmap string FunctionFragment }.

(** [new Interface(fragments)], the fragments already parsed: a signature
    met again is dropped. *)
Definition new_Interface (fragments : list FunctionFragment) : Interface :=
  {| functions :=
       fold_left (fun m f => match m !! format f with
                             | Some _ => m
                             | None => <[format f := f]> m
                             end) fragments ∅ |}.

(** [getSighash(fragment)]: the first four bytes of the hash of the
    signature. *)
Definition sighashBytes (f : FunctionFragment) : list byte :=
  take 4 (Keccak.keccak256 (list_byte_of_string (format f))).

Definition getSighash (f : FunctionFragment) : string := hexlify (sighashBytes f).

Definition signatureName (signature : string) : string :=
  match String.index 0 "(" signature with
  | Some i => String.substring 0 i signature
  | None => signature
  end.

(** [getFunction(nameOrSignatureOrSighash)]: by selector, by bare name when
    exactly one function has it, or by signature. A signature is looked up
    as it is written, in its canonical spelling. *)
Definition getFunction (iface : Interface) (nameOrSignatureOrSighash : string)
  : option FunctionFragment :=
  let fs := map_to_list (functions iface) in
  if isHexString nameOrSignatureOrSighash then
    '(_, kf) ← list_find (fun kf => getSighash kf.2 = nameOrSignatureOrSighash) fs;
    Some kf.2
  else
    match String.index 0 "(" nameOrSignatureOrSighash with
    | None =>
        match filter (fun kf => signatureName kf.1 = nameOrSignatureOrSighash) fs with
        | [kf] => Some kf.2
        | _ => None
        end
    | Some _ => functions iface !! nameOrSignatureOrSighash
    end.

Definition _encodeParams := AbiCoder_encode.
Definition _decodeParams := AbiCoder_decode.

(** [encodeFunctionData(functionFragment, values)], the fragment given by
    name or signature. *)
Definition encodeFunctionData (iface : Interface) (functionFragment : string)
  (values : list Value) : option string :=
  f ← getFunction iface functionFragment;
  sighash ← arrayify (getSighash f);
  params ← _encodeParams (inputs f) values;
  Some (hexlify (sighash ++ params)).

(** [decodeFunctionData(functionFragment, data)]. *)
Definition decodeFunctionData (iface : Interface) (functionFragment : string)
  (data : string) : option (list Value) :=
  f ← getFunction iface functionFragment;
  bytes ← arrayify data;
  if String.eqb (hexlify (take 4 bytes)) (getSighash f)
  then _decodeParams (inputs f) (drop 4 bytes)
  else None.

End Ethers.

Import Ethers.

(* ===================================================================== *)
(** ** [encodeSingle.ts]                                                 *)
(* ===================================================================== *)

Module EncodeSingle.

(** Modelled from the spec: the declarations of [./types] that this file
    imports ([TransactionType], the four kinds of [TransactionInput] and
    [MetaTransaction]), with the field names the code reads. An ABI is a
    list of function fragments already parsed. *)
Record TransferFundsTransactionInput := {
  tf_to : string;
  tf_amount : Z;
  tf_token : option string       (* [null] is [None] *)
}.

Record TransferCollectibleTransactionInput := {
  tc_from : string;
  tc_to : string;
  tc_address : string;
  tc_tokenId : Z
}.

Record CallContractTransactionInput := {
  cc_to : string;
  cc_value : option Z;
  cc_abi : list FunctionFragment;
  cc_functionSignature : string;
  cc_inputValues : gmap string Value
}.

Record RawTransactionInput := {
  raw_to : string;
  raw_value : option Z;
  raw_data : option string
}.

Inductive TransactionInput :=
| transferFunds (tx : TransferFundsTransactionInput)
| transferCollectible (tx : TransferCollectibleTransactionInput)
| callContract (tx : CallContractTransactionInput)
| raw (tx : RawTransactionInput).

Record MetaTransaction := { to : string; value : Z; data : string }.

Definition erc20Interface : Interface :=
  new_Interface
    [ {| fname := "transfer";
         inputs := [ {| name := "recipient"; type := TAddress |};
                     {| name := "amount"; type := TUint 256 |} ] |} ].

Definition encodeErc20Transfer (tx : TransferFundsTransactionInput)
  : option string :=
  encodeFunctionData erc20Interface "transfer(address,uint256)"
    [ VString (tf_to tx); VBigNumber (tf_amount tx) ].

Definition erc721Interface : Interface :=
  new_Interface
    [ {| fname := "safeTransferFrom";
         inputs := [ {| name := "_from"; type := TAddress |};
                     {| name := "_to"; type := TAddress |};
                     {| name := "_tokenId"; type := TUint 256 |} ] |} ].

Definition encodeErc721Transfer (tx : TransferCollectibleTransactionInput)
  : option string :=
  encodeFunctionData erc721Interface
    "safeTransferFrom(address,address,uint256)"
    [ VString (tc_from tx); VString (tc_to tx); VBigNumber (tc_tokenId tx) ].

Definition defaultValue (paramType : ParamType) : option Value :=
  Ethers.defaultValue <$> _getCoder paramType.

(** [iface.functions[sig].inputs.map(input => inputValues[input.name] ||
    defaultValue(input))]: the default is computed only for a missing or
    falsy value. *)
Definition encodeFunctionCall (tx : CallContractTransactionInput)
  : option string :=
  let iface := new_Interface (cc_abi tx) in
  f ← functions iface !! cc_functionSignature tx;
  values ← mapM (fun input =>
                   match cc_inputValues tx !! name input with
                   | Some v => if truthy v then Some v else defaultValue input
                   | None => defaultValue input
                   end) (inputs f);
  encodeFunctionData iface (cc_functionSignature tx) values.

Definition encodeSingle (tx : TransactionInput) : option MetaTransaction :=
  match tx with
  | transferFunds tx =>
      match tf_token tx with
      | None =>
          Some {| to := tf_to tx; value := tf_amount tx; data := "0x" |}
      | Some token =>
          data ← encodeErc20Transfer tx;
          Some {| to := token; value := 0; data := data |}
      end
  | transferCollectible tx =>
      data ← encodeErc721Transfer tx;
      Some {| to := tc_address tx; value := 0; data := data |}
  | callContract tx =>
      data ← encodeFunctionCall tx;
      Some {| to := cc_to tx; value := js_or (cc_value tx) 0; data := data |}
  | raw tx =>
      Some {| to := raw_to tx;
              value := js_or (raw_value tx) 0;
              data := js_or (raw_data tx) "0x" |}
  end.

End EncodeSingle.

(* ===================================================================== *)
(** ** The multiSend module (second part of the source)                  *)
(* ===================================================================== *)

Module MultiSend.

(** Modelled from the spec: the declarations of [./types] that this part
    imports. [Operation] is the enumeration [CALL = 0],
    [DELEGATE_CALL = 1]; a [TransactionInput] is what
    [coerceTransactionInput] reads, [to] and the optional [operation],
    [value] and [data]. *)
Inductive Operation := CALL | DELEGATE_CALL.

Definition Operation_value (op : Operation) : Z :=
  match op with CALL => 0 | DELEGATE_CALL => 1 end.

#[global] Instance truthy_Operation : Truthy Operation :=
  fun op => truthy (Operation_value op).

Record TransactionInput := {
  in_operation : option Operation;
  in_to : string;
  in_value : option Z;
  in_data : option string
}.

Record ModuleTransaction := {
  operation : Operation;
  to : string;
  value : Z;
  data : string
}.

Definition MULTI_SEND_ABI : list FunctionFragment :=
  [ {| fname := "multiSend";
       inputs := [ {| name := "transactions"; type := TBytes |} ] |} ].

Definition MULTI_SEND_CONTRACT_ADDRESS : string :=
  "0x8D29bE29923b68abfDD21e541b9374737B49cdAD".

Definition coerceTransactionInput (tx : TransactionInput) : ModuleTransaction :=
  {| operation := js_or (in_operation tx) CALL;
     to := in_to tx;
     value := js_or (in_value tx) 0;
     data := js_or (in_data tx) "0x" |}.

Definition encodePacked (transactionInput : TransactionInput) : option string :=
  let tx := coerceTransactionInput transactionInput in
  pack [ PUint 8; PAddress; PUint 256; PUint 256; PBytes ]
       [ VNumber (Operation_value (js_or (Some (operation tx)) CALL));
         VString (to tx);
         VBigNumber (js_or (Some (value tx)) 0);
         from_option VNumber VNull (hexDataLength (data tx));
         VString (data tx) ].

Definition remove0x (hexString : string) : string := substr 2 hexString.

(** The second argument is optional; left out, the parameter takes its
    default. *)
Definition encodeMultiSend (transactions : list TransactionInput)
  (multiSendContractAddress : option string) : option ModuleTransaction :=
  let multiSendContractAddress :=
    default MULTI_SEND_CONTRACT_ADDRESS multiSendContractAddress in
  let multiSendContract := new_Interface MULTI_SEND_ABI in
  packed ← mapM encodePacked transactions;
  let transactionsEncoded := "0x" +:+ String.concat "" (remove0x <$> packed) in
  data ← encodeFunctionData multiSendContract "multiSend"
           [ VString transactionsEncoded ];
  Some {| operation := DELEGATE_CALL;
          to := js_or (Some multiSendContractAddress) MULTI_SEND_CONTRACT_ADDRESS;
          value := 0;
          data := data |}.

(** The class [MultiSender]: a contract bound to the avatar, with the
    address of the relay. *)
Record MultiSender := {
  avatarAddress : string;
  multiSendContractAddress : string
}.

Definition new_MultiSender (avatarAddress : string)
  (multiSendContractAddress : option string) : MultiSender :=
  {| avatarAddress := avatarAddress;
     multiSendContractAddress :=
       default MULTI_SEND_CONTRACT_ADDRESS multiSendContractAddress |}.

Section Dispatch.
(** The avatar's [execTransactionFromModule], reached through the
    contract binding, is the one external call. *)
Context {Overrides Response : Type}.
Variable execTransactionFromModule :
  MultiSender → string → Z → string → Operation → Overrides → Response.

Definition multiSend (this : MultiSender)
  (transactions : list TransactionInput) (overrides : Overrides)
  : option Response :=
  moduleTx ←
    (if (length transactions =? 1)%nat
     then coerceTransactionInput <$> transactions !! 0%nat
     else encodeMultiSend transactions (Some (multiSendContractAddress this)));
  Some (execTransactionFromModule this
          (to moduleTx) (value moduleTx) (data moduleTx)
          (operation moduleTx) overrides).
End Dispatch.

End MultiSend.

Import MultiSend.

(* ===================================================================== *)
(** ** Notions of the specification                                      *)
(* ===================================================================== *)

(** The value a decoder hands back for [v] at type [t]: an integer as a
    BigNumber, an address in its checksum spelling, hex data in lower case,
    a boolean as the truthiness of what was given. [None] when [v] is not a
    value of the type, or the type has no coder. *)
Definition canonical (t : SolType) (v : Value) : option Value :=
  match t with
  | TAddress =>
      match v with VString s => VString <$> getAddress s | _ => None end
  | TBool => Some (VBool (truthy v))
  | TString =>
      match v with
      | VString s => _ ← toUtf8Bytes s; Some (VString s)
      | _ => None
      end
  | TBytes =>
      match v with
      | VString s => bs ← arrayify s; Some (VString (hexlify bs))
      | _ => None
      end
  | TUint bits =>
      z ← BigNumber_from v;
      if validSize bits && (0 <=? z) && (z <? 2 ^ bits)
      then Some (VBigNumber z) else None
  | TInt bits =>
      z ← BigNumber_from v;
      if validSize bits && (- 2 ^ (bits - 1) <=? z) && (z <? 2 ^ (bits - 1))
      then Some (VBigNumber z) else None
  | TFixedBytes size =>
      match v with
      | VString s =>
          bs ← arrayify s;
          if (0 <? size) && (size <=? 32) && (Z.of_nat (length bs) =? size)
          then Some (VString (hexlify bs)) else None
      | _ => None
      end
  end.

(** What the tuple coder needs of the bytes [bs] a coder wrote for a value
    that reads back as [v']: a static part is one word and is read off the
    front; a dynamic part is read wherever it starts. *)
Definition readsBack (c : Coder) (bs : list byte) (v' : Value) : Prop :=
  if dynamic c
  then Z.of_nat (length bs) < 2 ^ 256 →
       ∀ rest, ∃ rest', decode c (bs ++ rest) = Some (v', rest')
  else length bs = 32%nat ∧ ∀ rest, decode c (bs ++ rest) = Some (v', rest).


(** The record layout of section 4.2: operation (1 byte), to (20 bytes),
    value (32 bytes, big-endian), data length (32 bytes, big-endian), data. *)
Module Layout.

Record PackedRecord := {
  rec_operation : Operation;
  rec_to : list byte;
  rec_value : Z;
  rec_data : list byte
}.

Definition operationByte (op : Operation) : byte :=
  match op with CALL => x00 | DELEGATE_CALL => x01 end.

Definition serialize (r : PackedRecord) : list byte :=
  operationByte (rec_operation r)
  :: rec_to r
  ++ beBytes 32 (rec_value r)
  ++ beBytes 32 (Z.of_nat (length (rec_data r)))
  ++ rec_data r.

Definition readOperation (b : byte) : option Operation :=
  match b with
  | x00 => Some CALL
  | x01 => Some DELEGATE_CALL
  | _ => None
  end.

(** One record off the front of a blob, and what follows it. *)
Definition readRecord (blob : list byte)
  : option (PackedRecord * list byte) :=
  match blob with
  | [] => None
  | b :: rest =>
      op ← readOperation b;
      let dataLength := Z.to_nat (beValue (take 32 (drop 52 rest))) in
      if (length rest <? 84 + dataLength)%nat then None
      else Some ({| rec_operation := op;
                    rec_to := take 20 rest;
                    rec_value := beValue (take 32 (drop 20 rest));
                    rec_data := take dataLength (drop 84 rest) |},
                 drop (84 + dataLength) rest)
  end.

Fixpoint splitRecordsFuel (fuel : nat) (blob : list byte)
  : option (list PackedRecord) :=
  match blob with
  | [] => Some []
  | _ =>
      match fuel with
      | O => None
      | S fuel' =>
          '(r, rest) ← readRecord blob;
          rs ← splitRecordsFuel fuel' rest;
          Some (r :: rs)
      end
  end.

(** The records of a blob, in the order they lie in it. Each record takes
    at least one byte, so the length of the blob is fuel enough. *)
Definition splitRecords (blob : list byte) : option (list PackedRecord) :=
  splitRecordsFuel (length blob) blob.

(** A record that fits the layout: [to] takes 20 bytes, the value and
    the data length a word each. *)
Definition fitsLayout (r : PackedRecord) : Prop :=
  length (rec_to r) = 20%nat
  ∧ 0 ≤ rec_value r < 2 ^ 256
  ∧ Z.of_nat (length (rec_data r)) < 2 ^ 256.

End Layout.

(** An input whose fields are what the data model asks for: [to] is [0x]
    and 40 hex digits, the value fits 256 bits, the data is a hex string of
    whole bytes (shorter than the longest JavaScript string). *)
Definition isAddressString (s : string) : bool :=
  isHexString s && (String.length s =? 42)%nat.

Definition validInput (tx : TransactionInput) : bool :=
  let m := coerceTransactionInput tx in
  isAddressString (to m)
  && (0 <=? value m) && (value m <? 2 ^ 256)
  && isHexString (data m) && Nat.even (String.length (data m))
  && (Z.of_nat (String.length (data m)) <? MAX_SAFE).

(** The raw-call intent with the fields of a multiSend input. *)
Definition asRaw (tx : TransactionInput) : EncodeSingle.TransactionInput :=
  EncodeSingle.raw {| EncodeSingle.raw_to := in_to tx;
                      EncodeSingle.raw_value := in_value tx;
                      EncodeSingle.raw_data := in_data tx |}.


(** The relay address a call ends up with: the override unless it is
    missing or empty. *)
Definition relayAddress (override : option string) : string :=
  match override with
  | Some (String c s) => String c s
  | _ => MULTI_SEND_CONTRACT_ADDRESS
  end.

(** The ABI encoding of the call [multiSend(blob)]: the selector
    [8d80ff0a], the offset word (32), the length word, and the blob padded
    to whole words. *)
Definition multiSendCalldata (blob : list byte) : string :=
  hexlify ([x8d; x80; xff; x0a]
           ++ beBytes 32 32
           ++ beBytes 32 (Z.of_nat (length blob))
           ++ writeBytes blob).


(** The two raw calls of the example in section 8 of the specification. *)
Definition exampleCall1 : TransactionInput :=
  {| in_operation := None;
     in_to := "0xAA00000000000000000000000000000000000001";
     in_value := Some 1;
     in_data := None |}.

Definition exampleCall2 : TransactionInput :=
  {| in_operation := None;
     in_to := "0xAA00000000000000000000000000000000000002";
     in_value := Some 0;
     in_data := Some "0x1234" |}.


(** A transfer of 5 in the native currency, a token transfer, and a
    contract call with three of its five arguments left out. *)
Definition exampleNativeTransfer : EncodeSingle.TransactionInput :=
  EncodeSingle.transferFunds
    {| EncodeSingle.tf_to := "0xAA00000000000000000000000000000000000001";
       EncodeSingle.tf_amount := 5;
       EncodeSingle.tf_token := None |}.


Definition exampleTransfer : EncodeSingle.TransferFundsTransactionInput :=
  {| EncodeSingle.tf_to := "0x8d29be29923b68abfdd21e541b9374737b49cdad";
     EncodeSingle.tf_amount := 1000;
     EncodeSingle.tf_token := Some "0x6B175474E89094C44Da98b954EedeAC495271d0F" |}.

Definition exampleFragment : FunctionFragment :=
  {| fname := "submit";
     inputs := [ {| name := "target"; type := TAddress |};
                 {| name := "amount"; type := TUint 256 |};
                 {| name := "payload"; type := TBytes |};
                 {| name := "urgent"; type := TBool |};
                 {| name := "note"; type := TString |} ] |}.

Definition exampleContractCall : EncodeSingle.CallContractTransactionInput :=
  {| EncodeSingle.cc_to := "0x6B175474E89094C44Da98b954EedeAC495271d0F";
     EncodeSingle.cc_value := None;
     EncodeSingle.cc_abi := [exampleFragment];
     EncodeSingle.cc_functionSignature := "submit(address,uint256,bytes,bool,string)";
     EncodeSingle.cc_inputValues :=
       <["amount" := VString "5"]> (<["note" := VString "hi"]> ∅) |}.

(** A transaction with its value replaced. *)
Definition withValue (tx : TransactionInput) (v : Z) : TransactionInput :=
  {| in_operation := in_operation tx; in_to := in_to tx;
     in_value := Some v; in_data := in_data tx |}.

(** The bytes a transaction with a 20-byte [to] takes in the blob: 85 and
    the bytes of its data. *)
Definition packedLength (tx : TransactionInput) : nat :=
  85 + (String.length (data (coerceTransactionInput tx)) - 2) / 2.

(** A meta transaction of [encodeSingle] as the multiSend module reads it:
    the object has [to], [value] and [data], and no [operation]. *)
Definition asInput (m : EncodeSingle.MetaTransaction) : TransactionInput :=
  {| in_operation := None;
     in_to := EncodeSingle.to m;
     in_value := Some (EncodeSingle.value m);
     in_data := Some (EncodeSingle.data m) |}.

(** A contract call with one more entry in [inputValues]. *)
Definition withInputValue (tx : EncodeSingle.CallContractTransactionInput)
  (key : string) (v : Value) : EncodeSingle.CallContractTransactionInput :=
  {| EncodeSingle.cc_to := EncodeSingle.cc_to tx;
     EncodeSingle.cc_value := EncodeSingle.cc_value tx;
     EncodeSingle.cc_abi := EncodeSingle.cc_abi tx;
     EncodeSingle.cc_functionSignature := EncodeSingle.cc_functionSignature tx;
     EncodeSingle.cc_inputValues := <[key := v]> (EncodeSingle.cc_inputValues tx) |}.


(** More samples: a collectible changing hands, a call with the value -1,
    a call whose [to] is two bytes long, the first example call spelled
    another way, and a contract call that names its function without the
    parameter types. *)
Definition exampleCollectible : EncodeSingle.TransferCollectibleTransactionInput :=
  {| EncodeSingle.tc_from := "0x8d29be29923b68abfdd21e541b9374737b49cdad";
     EncodeSingle.tc_to := "0x6B175474E89094C44Da98b954EedeAC495271d0F";
     EncodeSingle.tc_address := "0xAA00000000000000000000000000000000000003";
     EncodeSingle.tc_tokenId := 7 |}.

Definition exampleNegativeValue : TransactionInput :=
  {| in_operation := None;
     in_to := "0xAA00000000000000000000000000000000000001";
     in_value := Some (-1);
     in_data := None |}.

Definition exampleShortAddress : TransactionInput :=
  {| in_operation := None; in_to := "0x1234"; in_value := None; in_data := None |}.

Definition exampleCall1Respelled : TransactionInput :=
  {| in_operation := Some CALL;
     in_to := "0xaa00000000000000000000000000000000000001";
     in_value := Some 1;
     in_data := Some "0x" |}.

Definition exampleBareNameCall : EncodeSingle.CallContractTransactionInput :=
  {| EncodeSingle.cc_to := "0x6B175474E89094C44Da98b954EedeAC495271d0F";
     EncodeSingle.cc_value := None;
     EncodeSingle.cc_abi := [exampleFragment];
     EncodeSingle.cc_functionSignature := "submit";
     EncodeSingle.cc_inputValues := ∅ |}.

(* ===================================================================== *)
(** ** Hex strings and bytes                                             *)
(* ===================================================================== *)

Section HexFacts.

Lemma append_cons (c : ascii) (s t : string) :
  String c s +:+ t = String c (s +:+ t).
Proof. reflexivity. Qed.

Lemma append_nil_l (t : string) : "" +:+ t = t.
Proof. reflexivity. Qed.

Lemma append_nil_r (s : string) : s +:+ "" = s.
Proof.
  induction s as [|c s IH]; [done|]. by rewrite append_cons, IH.
Qed.

Lemma append_assoc (a b c : string) : (a +:+ b) +:+ c = a +:+ (b +:+ c).
Proof.
  induction a as [|x a IH]; [done|]. by rewrite !append_cons, IH.
Qed.

Lemma length_append (a b : string) :
  String.length (a +:+ b) = (String.length a + String.length b)%nat.
Proof.
  induction a as [|x a IH]; [done|]. rewrite append_cons. simpl. by rewrite IH.
Qed.


Lemma concat_empty_cons (x : string) (xs : list string) :
  String.concat "" (x :: xs) = x +:+ String.concat "" xs.
Proof. destruct xs; [symmetry; apply append_nil_r | done]. Qed.

Lemma substring_all (s : string) : String.substring 0 (String.length s) s = s.
Proof. induction s as [|c s IH]; simpl; [done | by rewrite IH]. Qed.

Lemma hexDigitValue_hexDigit (n : N) :
  (n < 16)%N → hexDigitValue (hexDigit n) = Some n.
Proof.
  intros Hn. rewrite <- (N2Nat.id n) at 2. unfold hexDigit.
  assert (N.to_nat n < 16)%nat as Hk by lia.
  revert Hk. generalize (N.to_nat n). clear. intros k Hk.
  do 16 (destruct k as [|k]; [reflexivity|]). lia.
Qed.

Lemma isHexDigit_hexDigit (n : N) : isHexDigit (hexDigit n) = true.
Proof.
  unfold hexDigit. generalize (N.to_nat n). intros k.
  do 16 (destruct k as [|k]; [reflexivity|]). by destruct k.
Qed.

Lemma isHexDigit_value (c : ascii) :
  isHexDigit c = true ↔ is_Some (hexDigitValue c).
Proof.
  unfold isHexDigit, hexDigitValue.
  destruct (_ && _)%N; [naive_solver|].
  destruct (_ && _)%N; [naive_solver|].
  destruct (_ && _)%N; [naive_solver|].
  simpl. split; [done | by intros [? ?]].
Qed.

Lemma byte_of_nibbles (b : byte) :
  Byte.of_N (16 * (Byte.to_N b / 16) + Byte.to_N b mod 16) = Some b.
Proof. rewrite <- N.div_mod by lia. apply Byte.of_to_N. Qed.

Lemma hexToBytes_byteHex (b : byte) (rest : string) :
  hexToBytes (byteHex b +:+ rest) = (bs ← hexToBytes rest; Some (b :: bs)).
Proof.
  unfold byteHex. rewrite !append_cons, append_nil_l. cbn [hexToBytes].
  pose proof (Byte.to_N_bounded b) as Hb.
  rewrite !hexDigitValue_hexDigit.
  - cbn [mbind option_bind]. by rewrite byte_of_nibbles.
  - apply N.Div0.div_lt_upper_bound. lia.
  - apply N.mod_lt. lia.
Qed.

Lemma bytesHex_cons (b : byte) (bs : list byte) :
  bytesHex (b :: bs) = byteHex b +:+ bytesHex bs.
Proof. unfold bytesHex. by rewrite fmap_cons, concat_empty_cons. Qed.

Lemma bytesHex_app (a b : list byte) :
  bytesHex (a ++ b) = bytesHex a +:+ bytesHex b.
Proof.
  induction a as [|x a IH]; [done|].
  rewrite <- app_comm_cons, !bytesHex_cons, IH. by rewrite append_assoc.
Qed.

Lemma hexToBytes_bytesHex (bs : list byte) : hexToBytes (bytesHex bs) = Some bs.
Proof.
  induction bs as [|b bs IH]; [done|].
  by rewrite bytesHex_cons, hexToBytes_byteHex, IH.
Qed.

Lemma arrayify_hexlify (bs : list byte) : arrayify (hexlify bs) = Some bs.
Proof. unfold hexlify. rewrite !append_cons. apply hexToBytes_bytesHex. Qed.

Lemma length_bytesHex (bs : list byte) :
  String.length (bytesHex bs) = (2 * length bs)%nat.
Proof.
  induction bs as [|b bs IH]; [done|].
  rewrite bytesHex_cons, length_append, IH. simpl. lia.
Qed.

Lemma length_hexlify (bs : list byte) :
  String.length (hexlify bs) = (2 + 2 * length bs)%nat.
Proof. unfold hexlify. by rewrite length_append, length_bytesHex. Qed.

Lemma remove0x_hexlify (bs : list byte) : remove0x (hexlify bs) = bytesHex bs.
Proof.
  unfold remove0x, substr, hexlify. rewrite !append_cons, append_nil_l. simpl.
  rewrite Nat.sub_0_r. apply substring_all.
Qed.

Lemma concat_bytesHex (bss : list (list byte)) :
  String.concat "" (bytesHex <$> bss) = bytesHex (concat bss).
Proof.
  induction bss as [|bs bss IH]; [done|].
  rewrite fmap_cons, concat_empty_cons, IH. simpl. by rewrite bytesHex_app.
Qed.

(** Gluing packed records: [0x] and the records without their own
    prefix spell the concatenation of their bytes. *)
Lemma glue_hexlify (bss : list (list byte)) :
  "0x" +:+ String.concat "" (remove0x <$> (hexlify <$> bss))
  = hexlify (concat bss).
Proof.
  unfold hexlify at 2. f_equal. rewrite <- concat_bytesHex. f_equal.
  rewrite <- list_fmap_compose. apply list_fmap_ext.
  intros _ bs _. apply remove0x_hexlify.
Qed.

(** What [hexToBytes] accepts: hex digits, two for each byte. *)
Lemma hexToBytes_Some (hex : string) (bs : list byte) :
  hexToBytes hex = Some bs →
  String.length hex = (2 * length bs)%nat
  ∧ forallb isHexDigit (list_ascii_of_string hex) = true.
Proof.
  revert hex. induction bs as [|b bs IH]; intros hex.
  - destruct hex as [|a [|c hex]]; [done | done |]. simpl.
    intros H. by simplify_option_eq.
  - destruct hex as [|a [|c hex]]; [done | done |]. simpl.
    intros H. simplify_option_eq.
    destruct (IH hex) as [-> ->]; [done|].
    split; [simpl; lia|].
    rewrite andb_true_r. apply andb_true_intro.
    split; apply isHexDigit_value; eauto.
Qed.

Lemma hexDigitValue_lt (c : ascii) (n : N) :
  hexDigitValue c = Some n → (n < 16)%N.
Proof.
  unfold hexDigitValue. intros H.
  repeat case_match; simplify_eq;
    repeat match goal with
           | H : (_ && _)%bool = true |- _ => apply andb_true_iff in H as [? ?]
           | H : (_ <=? _)%N = true |- _ => apply N.leb_le in H
           end; lia.
Qed.

Lemma hexToBytes_total (hex : string) :
  forallb isHexDigit (list_ascii_of_string hex) = true →
  Nat.even (String.length hex) = true →
  is_Some (hexToBytes hex).
Proof.
  remember (String.length hex) as n eqn:Hn.
  revert hex Hn. induction n as [n IH] using lt_wf_ind. intros hex Hn.
  destruct hex as [|a [|c hex]]; [by eexists | by subst |].
  simpl. intros [Ha [Hc Hrest]%andb_true_iff]%andb_true_iff Heven.
  apply isHexDigit_value in Ha as [hi Hhi], Hc as [lo Hlo].
  destruct (IH (String.length hex)) with (hex := hex) as [bs Hbs];
    [simpl in Hn; lia | done | done | by subst |].
  rewrite Hhi, Hlo, Hbs. cbn [mbind option_bind].
  apply hexDigitValue_lt in Hhi, Hlo.
  destruct (Byte.of_N (16 * hi + lo)) eqn:Hb; [by eexists|].
  apply Byte.of_N_None_iff in Hb. lia.
Qed.

Lemma arrayify_Some (s : string) (bs : list byte) :
  arrayify s = Some bs →
  isHexString s = true ∧ String.length s = (2 + 2 * length bs)%nat.
Proof.
  unfold arrayify, isHexString. intros H.
  repeat case_match; simplify_eq.
  apply hexToBytes_Some in H as [Hlen Hdigits].
  split; [done | simpl; lia].
Qed.

Lemma arrayify_total (s : string) :
  isHexString s = true → Nat.even (String.length s) = true →
  is_Some (arrayify s).
Proof.
  unfold arrayify, isHexString. intros H Heven.
  repeat case_match; simplify_eq. by apply hexToBytes_total.
Qed.

Lemma hexDataLength_arrayify (s : string) (bs : list byte) :
  arrayify s = Some bs → hexDataLength s = Some (Z.of_nat (length bs)).
Proof.
  intros [Hhex Hlen]%arrayify_Some. unfold hexDataLength.
  rewrite Hhex, Hlen.
  assert (Nat.even (2 + 2 * length bs) = true) as ->
    by (rewrite Nat.even_add, Nat.even_mul; done).
  simpl andb. cbv iota. f_equal.
  replace (Z.of_nat (2 + 2 * length bs) - 2) with (Z.of_nat (length bs) * 2) by lia.
  apply Z.div_mul. lia.
Qed.

Lemma isHexString_hexlify (bs : list byte) : isHexString (hexlify bs) = true.
Proof. by destruct (arrayify_Some _ _ (arrayify_hexlify bs)). Qed.

End HexFacts.

(* ===================================================================== *)
(** ** Big-endian words                                                  *)
(* ===================================================================== *)

Section WordFacts.

Lemma byteToZ_range (b : byte) : 0 ≤ byteToZ b < 256.
Proof. unfold byteToZ. pose proof (Byte.to_N_bounded b). lia. Qed.

Lemma byteToZ_byteOfZ (z : Z) : byteToZ (byteOfZ z) = z mod 256.
Proof.
  unfold byteToZ, byteOfZ.
  pose proof (Z.mod_pos_bound z 256 ltac:(lia)) as Hm.
  destruct (Byte.of_N (Z.to_N (z mod 256))) as [b|] eqn:Hb.
  - apply Byte.to_of_N in Hb. simpl. rewrite Hb. lia.
  - apply Byte.of_N_None_iff in Hb. lia.
Qed.

Lemma byteOfZ_byteToZ (b : byte) : byteOfZ (byteToZ b) = b.
Proof.
  unfold byteOfZ. pose proof (byteToZ_range b) as Hb.
  rewrite Z.mod_small by done. unfold byteToZ.
  by rewrite N2Z.id, Byte.of_to_N.
Qed.

Lemma byteOfZ_mod (z : Z) : byteOfZ (z mod 256) = byteOfZ z.
Proof. unfold byteOfZ. by rewrite Z.mod_mod. Qed.

Lemma length_beBytes (n : nat) (z : Z) : length (beBytes n z) = n.
Proof.
  revert z. induction n as [|n IH]; intros z; [done|].
  simpl. rewrite length_app, IH. simpl. lia.
Qed.

Lemma beValue_snoc (bs : list byte) (b : byte) :
  beValue (bs ++ [b]) = beValue bs * 256 + byteToZ b.
Proof. unfold beValue. by rewrite fold_left_app. Qed.

Lemma beValue_range (bs : list byte) : 0 ≤ beValue bs < 256 ^ Z.of_nat (length bs).
Proof.
  induction bs as [|b bs IH] using rev_ind; [done|].
  rewrite beValue_snoc, length_app. simpl length.
  rewrite Nat2Z.inj_add, Z.pow_add_r by lia.
  pose proof (byteToZ_range b). change (256 ^ Z.of_nat 1) with 256. nia.
Qed.

Lemma beValue_beBytes (n : nat) (z : Z) :
  beValue (beBytes n z) = z mod 256 ^ Z.of_nat n.
Proof.
  revert z. induction n as [|n IH]; intros z.
  - simpl. by rewrite Z.mod_1_r.
  - cbn [beBytes]. rewrite beValue_snoc, IH, byteToZ_byteOfZ.
    rewrite Nat2Z.inj_succ, Z.pow_succ_r by lia.
    rewrite Z.rem_mul_r by lia. lia.
Qed.

Lemma beValue_beBytes_small (n : nat) (z : Z) :
  0 ≤ z < 256 ^ Z.of_nat n → beValue (beBytes n z) = z.
Proof. intros H. rewrite beValue_beBytes. by apply Z.mod_small. Qed.

Lemma beBytes_beValue (bs : list byte) : beBytes (length bs) (beValue bs) = bs.
Proof.
  induction bs as [|b bs IH] using rev_ind; [done|].
  rewrite beValue_snoc, length_app. simpl length. rewrite Nat.add_1_r.
  cbn [beBytes]. pose proof (byteToZ_range b) as Hb.
  assert ((beValue bs * 256 + byteToZ b) / 256 = beValue bs) as ->.
  { rewrite Z.div_add_l, Z.div_small by lia. lia. }
  assert (byteOfZ (beValue bs * 256 + byteToZ b) = b) as ->.
  { rewrite <- byteOfZ_mod, Z.add_comm, Z_mod_plus_full.
    rewrite Z.mod_small by lia. apply byteOfZ_byteToZ. }
  by rewrite IH.
Qed.

(** A word of 32 bytes holds what is below [2 ^ 256]. *)
Lemma word_value (z : Z) : 0 ≤ z < 2 ^ 256 → beValue (beBytes 32 z) = z.
Proof. intros H. apply beValue_beBytes_small. by change (256 ^ Z.of_nat 32) with (2 ^ 256). Qed.

End WordFacts.

(* ===================================================================== *)
(** ** Packed records                                                    *)
(* ===================================================================== *)

Section PackFacts.

Lemma toTwos_nonneg (z width : Z) : 0 ≤ z → toTwos z width = z.
Proof. intros H. unfold toTwos. by rewrite (proj2 (Z.ltb_ge z 0)). Qed.

Lemma in_range_true (lo z hi : Z) : lo ≤ z < hi → (lo <=? z) && (z <? hi) = true.
Proof. intros H. apply andb_true_intro. split; [apply Z.leb_le | apply Z.ltb_lt]; lia. Qed.

Lemma pack1_uint (bits : Z) (value : Value) (z : Z) :
  validSize bits = true → BigNumber_from value = Some z → 0 ≤ z < 2 ^ bits →
  pack1 (PUint bits) value = Some (beBytes (Z.to_nat (bits / 8)) z).
Proof.
  intros Hsize Hfrom Hz. unfold pack1. rewrite Hsize, Hfrom. cbn [mbind option_bind].
  rewrite toTwos_nonneg by lia. by rewrite in_range_true.
Qed.

Lemma BigNumber_from_number (z : Z) :
  - MAX_SAFE < z < MAX_SAFE → BigNumber_from (VNumber z) = Some z.
Proof.
  intros H. unfold BigNumber_from.
  destruct (Z.leb_spec MAX_SAFE z), (Z.leb_spec z (- MAX_SAFE)); try lia. done.
Qed.

Lemma pack_Some_hexlify (types : list PackType) (values : list Value) (s : string) :
  pack types values = Some s → ∃ bs, s = hexlify bs.
Proof. unfold pack. intros H. case_match; simplify_option_eq; eauto. Qed.

Lemma encodePacked_Some_hexlify (tx : TransactionInput) (s : string) :
  encodePacked tx = Some s → ∃ bs, s = hexlify bs.
Proof. apply pack_Some_hexlify. Qed.

Lemma Operation_or_CALL (op : Operation) : js_or (Some op) CALL = op.
Proof. by destruct op. Qed.

Lemma value_or_zero (z : Z) : js_or (Some z) 0 = z.
Proof.
  unfold js_or, truthy, truthy_Z. destruct (Z.eqb_spec z 0); simpl; congruence.
Qed.

Lemma operation_byte (op : Operation) :
  beBytes 1 (Operation_value op) = [Layout.operationByte op].
Proof. by destruct op. Qed.

(** The bytes of a valid input and the record they make. *)
Lemma validInput_bytes (tx : TransactionInput) :
  validInput tx = true →
  ∃ toBytes dataBytes,
    arrayify (to (coerceTransactionInput tx)) = Some toBytes
    ∧ length toBytes = 20%nat
    ∧ arrayify (data (coerceTransactionInput tx)) = Some dataBytes
    ∧ 0 ≤ value (coerceTransactionInput tx) < 2 ^ 256
    ∧ Z.of_nat (length dataBytes) < MAX_SAFE.
Proof.
  unfold validInput, isAddressString. generalize (coerceTransactionInput tx).
  intros m H.
  repeat (apply andb_true_iff in H as [H ?]).
  destruct (arrayify_total (to m)) as [toBytes Hto]; [done | |].
  { by replace (String.length (to m)) with 42%nat by (symmetry; by apply Nat.eqb_eq). }
  destruct (arrayify_total (data m)) as [dataBytes Hdata]; [done | done |].
  exists toBytes, dataBytes.
  pose proof (arrayify_Some _ _ Hto) as [_ Hlto].
  pose proof (arrayify_Some _ _ Hdata) as [_ Hldata].
  repeat match goal with
         | H : (_ =? _)%nat = true |- _ => apply Nat.eqb_eq in H
         | H : (_ <=? _) = true |- _ => apply Z.leb_le in H
         | H : (_ <? _) = true |- _ => apply Z.ltb_lt in H
         end.
  repeat split; try done; lia.
Qed.

Lemma encodePacked_bytes (tx : TransactionInput) (toBytes dataBytes : list byte) :
  arrayify (to (coerceTransactionInput tx)) = Some toBytes →
  arrayify (data (coerceTransactionInput tx)) = Some dataBytes →
  0 ≤ value (coerceTransactionInput tx) < 2 ^ 256 →
  Z.of_nat (length dataBytes) < MAX_SAFE →
  encodePacked tx
  = Some (hexlify (Layout.serialize
                     {| Layout.rec_operation := operation (coerceTransactionInput tx);
                        Layout.rec_to := toBytes;
                        Layout.rec_value := value (coerceTransactionInput tx);
                        Layout.rec_data := dataBytes |})).
Proof.
  unfold encodePacked. generalize (coerceTransactionInput tx).
  intros m Hto Hdata Hvalue Hlen.
  rewrite Operation_or_CALL, value_or_zero, (hexDataLength_arrayify _ _ Hdata).
  unfold pack. cbn [length Nat.eqb zip zip_with from_option].
  rewrite (proj2 (mapM_Some _ _
             [ [Layout.operationByte (operation m)]; toBytes;
               beBytes 32 (value m); beBytes 32 (Z.of_nat (length dataBytes));
               dataBytes ])).
  { unfold Layout.serialize. cbn [mbind option_bind concat app Layout.rec_operation
      Layout.rec_to Layout.rec_value Layout.rec_data].
    by rewrite app_nil_r. }
  constructor; [| constructor; [| constructor; [| constructor;
    [| constructor; [| constructor ] ] ] ] ].
  - rewrite (pack1_uint 8 _ (Operation_value (operation m))); [| done | | ].
    + by rewrite <- operation_byte.
    + apply BigNumber_from_number. by destruct (operation m).
    + by destruct (operation m).
  - exact Hto.
  - by apply pack1_uint.
  - apply pack1_uint; [done | | ].
    + apply BigNumber_from_number. unfold MAX_SAFE in *. lia.
    + unfold MAX_SAFE in *. lia.
  - exact Hdata.
Qed.

End PackFacts.

(* ===================================================================== *)
(** ** Reading records back from a blob                                  *)
(* ===================================================================== *)

Section LayoutFacts.
Import Layout.

Lemma length_serialize (r : PackedRecord) :
  length (rec_to r) = 20%nat →
  length (serialize r) = (85 + length (rec_data r))%nat.
Proof.
  intros Hto. unfold serialize. cbn [length].
  rewrite !length_app, !length_beBytes, Hto. lia.
Qed.

Lemma readOperation_operationByte (op : Operation) :
  readOperation (operationByte op) = Some op.
Proof. by destruct op. Qed.

Lemma readRecord_serialize (r : PackedRecord) (rest : list byte) :
  fitsLayout r → readRecord (serialize r ++ rest) = Some (r, rest).
Proof.
  intros (Hto & Hvalue & Hlen). destruct r as [op toBytes v dataBytes].
  cbn [rec_to rec_value rec_data] in *.
  unfold serialize, readRecord.
  cbn [rec_operation rec_to rec_value rec_data].
  rewrite <- app_comm_cons, readOperation_operationByte.
  cbn [mbind option_bind]. rewrite <- !app_assoc.
  set (w1 := beBytes 32 v). set (w2 := beBytes 32 (Z.of_nat (length dataBytes))).
  assert (length w1 = 32%nat) as Hw1 by apply length_beBytes.
  assert (length w2 = 32%nat) as Hw2 by apply length_beBytes.
  assert (drop 20 (toBytes ++ w1 ++ w2 ++ dataBytes ++ rest)
          = w1 ++ w2 ++ dataBytes ++ rest) as Hd20
    by (by apply drop_app_length').
  assert (drop 52 (toBytes ++ w1 ++ w2 ++ dataBytes ++ rest)
          = w2 ++ dataBytes ++ rest) as Hd52.
  { change 52%nat with (20 + 32)%nat. rewrite <- drop_drop, Hd20.
    by apply drop_app_length'. }
  assert (drop 84 (toBytes ++ w1 ++ w2 ++ dataBytes ++ rest)
          = dataBytes ++ rest) as Hd84.
  { change 84%nat with (52 + 32)%nat. rewrite <- drop_drop, Hd52.
    by apply drop_app_length'. }
  rewrite Hd20, Hd52, Hd84.
  rewrite !take_app_length' by done.
  subst w1 w2. rewrite !word_value by lia. rewrite Nat2Z.id.
  rewrite take_app_length.
  assert (drop (84 + length dataBytes) (toBytes ++ beBytes 32 v
            ++ beBytes 32 (Z.of_nat (length dataBytes)) ++ dataBytes ++ rest)
          = rest) as ->.
  { rewrite <- drop_drop, Hd84. apply drop_app_length. }
  rewrite !length_app, Hto, Hw1, Hw2.
  destruct (Nat.ltb_spec (20 + (32 + (32 + (length dataBytes + length rest))))
              (84 + length dataBytes)); [lia | done].
Qed.

Lemma splitRecordsFuel_serialize (rs : list PackedRecord) (fuel : nat) :
  Forall fitsLayout rs → (length rs ≤ fuel)%nat →
  splitRecordsFuel fuel (concat (serialize <$> rs)) = Some rs.
Proof.
  revert fuel. induction rs as [|r rs IH]; intros fuel Hfit Hfuel.
  - by destruct fuel.
  - apply Forall_cons in Hfit as [Hr Hrs].
    destruct fuel as [|fuel]; [simpl in Hfuel; lia|].
    rewrite fmap_cons. cbn [concat].
    cbn [splitRecordsFuel].
    destruct (serialize r ++ concat (serialize <$> rs)) as [|b blob] eqn:Hblob.
    { unfold serialize in Hblob. by rewrite <- app_comm_cons in Hblob. }
    rewrite <- Hblob, readRecord_serialize by done.
    cbn [mbind option_bind]. rewrite IH; [done | done | simpl in Hfuel; lia].
Qed.

Lemma length_concat_serialize (rs : list PackedRecord) :
  (length rs ≤ length (concat (serialize <$> rs)))%nat.
Proof.
  induction rs as [|r rs IH]; [done|].
  rewrite fmap_cons. cbn [concat]. rewrite length_app.
  unfold serialize at 1. simpl length. lia.
Qed.

(** Splitting the concatenation of serialized records gives the records
    back, in their order. *)
Lemma splitRecords_serialize (rs : list PackedRecord) :
  Forall fitsLayout rs → splitRecords (concat (serialize <$> rs)) = Some rs.
Proof.
  intros Hfit. apply splitRecordsFuel_serialize; [done|].
  apply length_concat_serialize.
Qed.

End LayoutFacts.

(* ===================================================================== *)
(** ** The ABI writer and reader                                         *)
(* ===================================================================== *)

Section CoderFacts.

Lemma padded_length (n : nat) :
  ((32 - n mod 32) mod 32 + n = (n + 31) / 32 * 32)%nat.
Proof.
  pose proof (Nat.div_mod_eq n 32).
  pose proof (Nat.mod_upper_bound n 32 ltac:(lia)).
  pose proof (Nat.div_mod_eq (n + 31) 32).
  pose proof (Nat.mod_upper_bound (n + 31) 32 ltac:(lia)).
  pose proof (Nat.div_mod_eq (32 - n mod 32) 32).
  pose proof (Nat.mod_upper_bound (32 - n mod 32) 32 ltac:(lia)).
  lia.
Qed.

Lemma length_writeBytes (bs : list byte) :
  length (writeBytes bs) = ((length bs + 31) / 32 * 32)%nat.
Proof.
  unfold writeBytes. rewrite length_app, repeat_length, <- padded_length. lia.
Qed.

Lemma readBytes_writeBytes (bs rest : list byte) :
  readBytes (length bs) (writeBytes bs ++ rest) = Some (bs, rest).
Proof.
  unfold readBytes. rewrite length_app, length_writeBytes.
  destruct (Nat.ltb_spec ((length bs + 31) / 32 * 32 + length rest)
              ((length bs + 31) / 32 * 32)); [lia|].
  f_equal. f_equal.
  - unfold writeBytes. rewrite <- app_assoc. apply take_app_length.
  - apply drop_app_length'. symmetry. apply length_writeBytes.
Qed.

Lemma readBytes_word (w rest : list byte) :
  length w = 32%nat → readBytes 32 (w ++ rest) = Some (w, rest).
Proof.
  intros Hw. unfold readBytes. change ((32 + 31) / 32 * 32)%nat with 32%nat.
  rewrite length_app, Hw.
  destruct (Nat.ltb_spec (32 + length rest) 32); [lia|].
  by rewrite take_app_length', drop_app_length'.
Qed.

Lemma readValue_word (z : Z) (rest : list byte) :
  0 ≤ z < 2 ^ 256 → readValue (beBytes 32 z ++ rest) = Some (z, rest).
Proof.
  intros Hz. unfold readValue.
  rewrite readBytes_word by apply length_beBytes.
  cbn [mbind option_bind]. by rewrite word_value.
Qed.

Lemma writeValue_BigNumber (z : Z) :
  0 ≤ z < 2 ^ 256 → writeValue (VBigNumber z) = Some (beBytes 32 z).
Proof.
  intros Hz. unfold writeValue. cbn [BigNumber_from mbind option_bind].
  by rewrite in_range_true.
Qed.

Lemma decodeDynamicBytes_encode (bs rest : list byte) :
  Z.of_nat (length bs) < 2 ^ 256 →
  decodeDynamicBytes (encodeDynamicBytes bs ++ rest) = Some (bs, rest).
Proof.
  intros Hlen. unfold decodeDynamicBytes, encodeDynamicBytes, writeLength.
  rewrite <- app_assoc, readValue_word by lia.
  cbn [mbind option_bind]. rewrite Nat2Z.id. apply readBytes_writeBytes.
Qed.

Lemma length_encodeDynamicBytes (bs : list byte) :
  (length bs ≤ length (encodeDynamicBytes bs))%nat.
Proof.
  unfold encodeDynamicBytes, writeBytes. rewrite !length_app. lia.
Qed.

Lemma lxor_ones (x n : Z) :
  0 ≤ n → 0 ≤ x < 2 ^ n → Z.lxor x (Z.ones n) = Z.ones n - x.
Proof.
  intros Hn Hx.
  destruct (Z.eq_dec x 0) as [->|Hx0].
  { rewrite Z.lxor_0_l. lia. }
  assert (Z.log2 x < n) as Hlog by (apply Z.log2_lt_pow2; lia).
  rewrite <- Z.ldiff_ones_l_low by lia.
  symmetry. apply Z.sub_nocarry_ldiff. apply Z.ldiff_ones_r_low; lia.
Qed.

Lemma pow2_double (n : Z) : 0 < n → 2 ^ n = 2 * 2 ^ (n - 1).
Proof. intros Hn. rewrite <- Z.pow_succ_r by lia. f_equal. lia. Qed.

Lemma testbit_top (u n : Z) :
  0 < n → 2 ^ (n - 1) ≤ u < 2 ^ n → Z.testbit u (n - 1) = true.
Proof.
  intros Hn Hu. apply Z.testbit_true; [lia|].
  pose proof (pow2_double n Hn) as E.
  assert (u / 2 ^ (n - 1) = 1) as ->; [|done].
  symmetry. apply Z.div_unique with (u - 2 ^ (n - 1)); lia.
Qed.

Lemma testbit_low (u n : Z) :
  0 < n → 0 ≤ u < 2 ^ (n - 1) → Z.testbit u (n - 1) = false.
Proof.
  intros Hn Hu. apply Z.testbit_false; [lia|]. by rewrite Z.div_small by lia.
Qed.

Lemma validSize_bits (bits : Z) :
  validSize bits = true → 0 < bits ≤ 256 ∧ bits / 8 * 8 = bits.
Proof.
  unfold validSize. intros [[H1 H2]%andb_true_iff H3]%andb_true_iff.
  apply Z.ltb_lt in H1. apply Z.leb_le in H2. apply Z.eqb_eq in H3.
  pose proof (Z.div_mod bits 8 ltac:(lia)). lia.
Qed.

Lemma pow2_le_word (bits : Z) : 0 < bits ≤ 256 → 2 ^ bits ≤ 2 ^ 256.
Proof. intros H. apply Z.pow_le_mono_r; lia. Qed.

(** Two's complement of width [bits], for a number the width can hold. *)
Lemma toTwos_signed (z bits : Z) :
  0 < bits → - 2 ^ (bits - 1) ≤ z < 2 ^ (bits - 1) →
  toTwos z bits = z mod 2 ^ bits.
Proof.
  intros Hb Hz. pose proof (pow2_double bits Hb) as E. unfold toTwos.
  destruct (Z.ltb_spec z 0).
  - rewrite lxor_ones by lia. rewrite Z.ones_equiv.
    apply Z.mod_unique with (-1); lia.
  - symmetry. apply Z.mod_small. lia.
Qed.

Lemma fromTwos_signed (z bits : Z) :
  0 < bits → - 2 ^ (bits - 1) ≤ z < 2 ^ (bits - 1) →
  fromTwos (z mod 2 ^ bits) bits = z.
Proof.
  intros Hb Hz. pose proof (pow2_double bits Hb) as E. unfold fromTwos.
  destruct (Z.ltb_spec z 0).
  - assert (z mod 2 ^ bits = 2 ^ bits + z) as ->
      by (symmetry; apply Z.mod_unique with (-1); lia).
    rewrite testbit_top by lia. rewrite lxor_ones by lia.
    rewrite Z.ones_equiv. lia.
  - rewrite Z.mod_small by lia. by rewrite testbit_low by lia.
Qed.

Lemma NumberCoder_unsigned (bits : Z) (v : Value) (z : Z) :
  validSize bits = true → BigNumber_from v = Some z → 0 ≤ z < 2 ^ bits →
  encode (NumberCoder (bits / 8) false) v = Some (beBytes 32 z)
  ∧ readsBack (NumberCoder (bits / 8) false) (beBytes 32 z) (VBigNumber z).
Proof.
  intros [Hb Hbits]%validSize_bits Hfrom Hz.
  pose proof (pow2_le_word bits Hb) as Hle.
  unfold readsBack. cbn [dynamic encode decode NumberCoder].
  rewrite Hfrom, Hbits. cbn [mbind option_bind].
  rewrite Z.ones_equiv.
  destruct (Z.ltb_spec z 0), (Z.ltb_spec (Z.pred (2 ^ bits)) z); try lia.
  cbn [orb]. rewrite toTwos_nonneg, <- Z.ones_equiv, Z.land_ones by lia.
  rewrite Z.mod_small by lia.
  rewrite writeValue_BigNumber by lia.
  split; [done|]. split; [apply length_beBytes|].
  intros rest. rewrite readValue_word by lia. cbn [mbind option_bind].
  by rewrite Z.land_ones, Z.mod_small by lia.
Qed.

Lemma NumberCoder_signed (bits : Z) (v : Value) (z : Z) :
  validSize bits = true → BigNumber_from v = Some z →
  - 2 ^ (bits - 1) ≤ z < 2 ^ (bits - 1) →
  ∃ bs, encode (NumberCoder (bits / 8) true) v = Some bs
        ∧ readsBack (NumberCoder (bits / 8) true) bs (VBigNumber z).
Proof.
  intros [Hb Hbits]%validSize_bits Hfrom Hz.
  pose proof (pow2_le_word bits Hb) as Hle.
  pose proof (pow2_double bits ltac:(lia)) as E.
  pose proof (pow2_double 256 ltac:(lia)) as E256.
  assert (2 ^ (bits - 1) ≤ 2 ^ (256 - 1)) as Hle' by (apply Z.pow_le_mono_r; lia).
  exists (beBytes 32 (z mod 2 ^ 256)). unfold readsBack.
  cbn [dynamic encode decode NumberCoder].
  rewrite Hfrom, Hbits. cbn [mbind option_bind].
  rewrite (Z.ones_equiv (bits - 1)).
  destruct (Z.ltb_spec (Z.pred (2 ^ (bits - 1))) z),
    (Z.ltb_spec z (- (Z.pred (2 ^ (bits - 1)) + 1))); try lia.
  cbn [orb].
  rewrite (toTwos_signed z bits) by lia.
  rewrite Z.land_ones, Z.mod_mod by lia.
  rewrite fromTwos_signed by lia.
  rewrite (toTwos_signed z 256) by lia.
  pose proof (Z.mod_pos_bound z (2 ^ 256) ltac:(lia)) as Hm.
  rewrite writeValue_BigNumber by lia.
  split; [done|]. split; [apply length_beBytes|].
  intros rest. rewrite readValue_word by lia. cbn [mbind option_bind].
  rewrite Z.land_ones by lia.
  assert ((z mod 2 ^ 256) mod 2 ^ bits = z mod 2 ^ bits) as ->.
  { replace (2 ^ 256) with (2 ^ bits * 2 ^ (256 - bits))
      by (rewrite <- Z.pow_add_r by lia; f_equal; lia).
    rewrite Z.rem_mul_r by lia.
    rewrite Z.mul_comm, Z.mod_add by lia. apply Z.mod_mod. lia. }
  by rewrite fromTwos_signed by lia.
Qed.

Lemma BooleanCoder_roundtrip (v : Value) :
  ∃ bs, encode BooleanCoder v = Some bs
        ∧ readsBack BooleanCoder bs (VBool (truthy v)).
Proof.
  exists (beBytes 32 (if truthy v then 1 else 0)). unfold readsBack.
  cbn [dynamic encode decode BooleanCoder].
  split; [by destruct (truthy v)|].
  split; [apply length_beBytes|].
  intros rest. rewrite readValue_word by (destruct (truthy v); lia).
  cbn [mbind option_bind]. by destruct (truthy v).
Qed.

Lemma BytesCoder_roundtrip (s : string) (bs : list byte) :
  arrayify s = Some bs →
  ∃ enc, encode BytesCoder (VString s) = Some enc
         ∧ readsBack BytesCoder enc (VString (hexlify bs)).
Proof.
  intros Hs. exists (encodeDynamicBytes bs). unfold readsBack.
  cbn [dynamic encode decode BytesCoder]. rewrite Hs.
  split; [done|]. intros Hlen rest. exists rest.
  pose proof (length_encodeDynamicBytes bs).
  by rewrite decodeDynamicBytes_encode by lia.
Qed.

Lemma byte_of_ascii_to_N (c : ascii) : Byte.to_N (byte_of_ascii c) = N_of_ascii c.
Proof. destruct c as [[] [] [] [] [] [] [] []]; reflexivity. Qed.

Lemma toUtf8String_toUtf8Bytes (s : string) (bs : list byte) :
  toUtf8Bytes s = Some bs → toUtf8String bs = Some s.
Proof.
  unfold toUtf8Bytes, toUtf8String. intros H.
  case_match eqn:Hascii; simplify_eq.
  assert (forallb (λ b, (Byte.to_N b <? 128)%N) (list_byte_of_string s) = true) as ->.
  { unfold list_byte_of_string. rewrite forallb_forall in *.
    intros b [c [<- Hc]]%in_map_iff. rewrite byte_of_ascii_to_N. by apply Hascii. }
  by rewrite string_of_list_byte_of_string.
Qed.

Lemma StringCoder_roundtrip (s : string) (bs : list byte) :
  toUtf8Bytes s = Some bs →
  ∃ enc, encode StringCoder (VString s) = Some enc
         ∧ readsBack StringCoder enc (VString s).
Proof.
  intros Hs. exists (encodeDynamicBytes bs). unfold readsBack.
  cbn [dynamic encode decode StringCoder]. rewrite Hs.
  split; [done|]. intros Hlen rest. exists rest.
  pose proof (length_encodeDynamicBytes bs).
  rewrite decodeDynamicBytes_encode by lia. cbn [mbind option_bind].
  by rewrite (toUtf8String_toUtf8Bytes s).
Qed.

Lemma FixedBytesCoder_roundtrip (size : Z) (s : string) (bs : list byte) :
  0 < size ≤ 32 → arrayify s = Some bs → Z.of_nat (length bs) = size →
  ∃ enc, encode (FixedBytesCoder (Z.to_nat size)) (VString s) = Some enc
         ∧ readsBack (FixedBytesCoder (Z.to_nat size)) enc (VString (hexlify bs)).
Proof.
  intros Hsize Hs Hlen. exists (writeBytes bs). unfold readsBack.
  cbn [dynamic encode decode FixedBytesCoder]. rewrite Hs. cbn [mbind option_bind].
  replace (Z.to_nat size) with (length bs) by lia.
  rewrite Nat.eqb_refl. split; [done|]. split.
  - rewrite length_writeBytes.
    assert (1 ≤ length bs ≤ 32)%nat as Hn by lia.
    pose proof (Nat.div_mod_eq (length bs + 31) 32).
    pose proof (Nat.mod_upper_bound (length bs + 31) 32 ltac:(lia)). lia.
  - intros rest. by rewrite readBytes_writeBytes.
Qed.

End CoderFacts.

(* ===================================================================== *)
(** ** Addresses and their checksum spelling                             *)
(* ===================================================================== *)

Section AddressFacts.

Lemma string_pair_ind (P : string → Prop) :
  P "" → (∀ a, P (String a "")) → (∀ a b s, P s → P (String a (String b s))) →
  ∀ s, P s.
Proof.
  intros H0 H1 H2. fix IH 1.
  intros [|a [|b s]]; [exact H0 | apply H1 | apply H2, IH].
Qed.

Lemma hexDigitValue_lower (c : ascii) :
  hexDigitValue (toLowerChar c) = hexDigitValue c.
Proof. destruct c as [[] [] [] [] [] [] [] []]; reflexivity. Qed.

Lemma hexDigitValue_upper (c : ascii) :
  hexDigitValue (toUpperChar c) = hexDigitValue c.
Proof. destruct c as [[] [] [] [] [] [] [] []]; reflexivity. Qed.

Lemma hexDigit_of_value (c : ascii) (n : N) :
  hexDigitValue c = Some n → hexDigit n = toLowerChar c.
Proof.
  destruct c as [[] [] [] [] [] [] [] []]; intros H; try discriminate H;
    injection H as <-; reflexivity.
Qed.

Lemma isHexDigit_eq (c : ascii) :
  isHexDigit c = match hexDigitValue c with Some _ => true | None => false end.
Proof. destruct c as [[] [] [] [] [] [] [] []]; reflexivity. Qed.

(** Strings with the same digit values, position by position. *)
Lemma hexToBytes_ext (s t : string) :
  hexDigitValue <$> list_ascii_of_string s = hexDigitValue <$> list_ascii_of_string t →
  hexToBytes s = hexToBytes t.
Proof.
  revert t. induction s as [|a|a b s IH] using string_pair_ind; intros t H.
  - by destruct t.
  - destruct t as [|c [|d t]]; try done.
  - destruct t as [|c [|d t]]; try done.
    cbn in H. injection H as Ha Hb H.
    cbn [hexToBytes]. by rewrite Ha, Hb, (IH t H).
Qed.

Lemma isHexString_ext (s t : string) :
  hexDigitValue <$> list_ascii_of_string s = hexDigitValue <$> list_ascii_of_string t →
  forallb isHexDigit (list_ascii_of_string s)
  = forallb isHexDigit (list_ascii_of_string t).
Proof.
  generalize (list_ascii_of_string t). intros l.
  induction (list_ascii_of_string s) as [|a k IH] in l |- *; intros H.
  - by destruct l.
  - destruct l as [|c l]; [done|]. cbn in H. injection H as Ha H.
    cbn [forallb]. by rewrite !isHexDigit_eq, Ha, (IH l H).
Qed.

Lemma hexValue_ext (s t : string) :
  hexDigitValue <$> list_ascii_of_string s = hexDigitValue <$> list_ascii_of_string t →
  hexValue s = hexValue t.
Proof.
  unfold hexValue. generalize 0.
  generalize (list_ascii_of_string t). intros l.
  induction (list_ascii_of_string s) as [|a k IH] in l |- *; intros acc H.
  - by destruct l.
  - destruct l as [|c l]; [done|]. cbn in H. injection H as Ha H.
    cbn [fold_left]. rewrite Ha. by apply IH.
Qed.

Lemma list_ascii_toLowerCase (s : string) :
  list_ascii_of_string (toLowerCase s) = toLowerChar <$> list_ascii_of_string s.
Proof. unfold toLowerCase. apply list_ascii_of_string_of_list_ascii. Qed.

Lemma digits_toLowerCase (s : string) :
  hexDigitValue <$> list_ascii_of_string (toLowerCase s)
  = hexDigitValue <$> list_ascii_of_string s.
Proof.
  rewrite list_ascii_toLowerCase, <- list_fmap_compose.
  apply list_fmap_ext. intros _ c _. apply hexDigitValue_lower.
Qed.

Lemma digits_checksumCase (chars : list ascii) :
  hexDigitValue <$> checksumCase chars = hexDigitValue <$> chars.
Proof.
  unfold checksumCase. rewrite fmap_imap.
  transitivity (imap (λ _ : nat, hexDigitValue) chars); [|apply imap_const].
  apply imap_ext. intros i c _. cbn. case_match; [apply hexDigitValue_upper | done].
Qed.

Lemma hexValue_fold (hex : string) (bs : list byte) (acc : Z) :
  hexToBytes hex = Some bs →
  fold_left (λ acc c, acc * 16 + Z.of_N (default 0%N (hexDigitValue c)))
            (list_ascii_of_string hex) acc
  = fold_left (λ acc b, acc * 256 + byteToZ b) bs acc.
Proof.
  revert bs acc.
  induction hex as [|a|a c hex IH] using string_pair_ind; intros bs acc H.
  - cbn in H. by simplify_eq.
  - done.
  - cbn [hexToBytes] in H.
    destruct (hexDigitValue a) as [hi|] eqn:Hhi; [|done].
    destruct (hexDigitValue c) as [lo|] eqn:Hlo; [|done].
    cbn [mbind option_bind] in H.
    destruct (Byte.of_N (16 * hi + lo)) as [x|] eqn:Hx; [|done].
    destruct (hexToBytes hex) as [rest|] eqn:Hrest; [|done].
    cbn [mbind option_bind] in H. simplify_eq.
    apply Byte.to_of_N in Hx.
    cbn [list_ascii_of_string fold_left]. rewrite Hhi, Hlo. cbn [default].
    rewrite (IH rest) by done. f_equal. unfold byteToZ, id. rewrite Hx. lia.
Qed.

(** The number a hex numeral spells is the big-endian value of its bytes. *)
Lemma hexValue_bytes (hex : string) (bs : list byte) :
  hexToBytes hex = Some bs → hexValue hex = beValue bs.
Proof. apply hexValue_fold. Qed.

(** The bytes of a hex string spell its digits in lower case. *)
Lemma bytesHex_hexToBytes (hex : string) (bs : list byte) :
  hexToBytes hex = Some bs → bytesHex bs = toLowerCase hex.
Proof.
  revert bs.
  induction hex as [|a|a c hex IH] using string_pair_ind; intros bs H.
  - cbn in H. by simplify_eq.
  - done.
  - cbn [hexToBytes] in H.
    destruct (hexDigitValue a) as [hi|] eqn:Hhi; [|done].
    destruct (hexDigitValue c) as [lo|] eqn:Hlo; [|done].
    cbn [mbind option_bind] in H.
    destruct (Byte.of_N (16 * hi + lo)) as [x|] eqn:Hx; [|done].
    destruct (hexToBytes hex) as [rest|] eqn:Hrest; [|done].
    cbn [mbind option_bind] in H. simplify_eq.
    apply Byte.to_of_N in Hx.
    pose proof (hexDigitValue_lt _ _ Hhi). pose proof (hexDigitValue_lt _ _ Hlo).
    rewrite bytesHex_cons, (IH rest) by done.
    unfold byteHex. rewrite Hx.
    assert ((16 * hi + lo) / 16 = hi)%N as ->
      by (symmetry; apply N.div_unique with lo; lia).
    assert ((16 * hi + lo) mod 16 = lo)%N as ->
      by (symmetry; apply N.mod_unique with hi; lia).
    rewrite (hexDigit_of_value a hi), (hexDigit_of_value c lo) by done.
    done.
Qed.

Lemma substr2_0x (s : string) : substr 2 ("0x" +:+ s) = s.
Proof.
  unfold substr. rewrite !append_cons, append_nil_l. simpl.
  rewrite Nat.sub_0_r. apply substring_all.
Qed.

Lemma toLowerCase_0x (s : string) : toLowerCase ("0x" +:+ s) = "0x" +:+ toLowerCase s.
Proof. reflexivity. Qed.

Lemma arrayify_inv (s : string) (bs : list byte) :
  arrayify s = Some bs → ∃ hex, s = "0x" +:+ hex ∧ hexToBytes hex = Some bs.
Proof.
  unfold arrayify. intros H. repeat case_match; simplify_eq. by eexists.
Qed.

Lemma getChecksumAddress_bytes (address : string) (bs : list byte) :
  arrayify address = Some bs →
  getChecksumAddress address
  = "0x" +:+ string_of_list_ascii (checksumCase (list_ascii_of_string (bytesHex bs))).
Proof.
  intros (hex & -> & Hhex)%arrayify_inv. unfold getChecksumAddress.
  by rewrite toLowerCase_0x, substr2_0x, (bytesHex_hexToBytes hex bs).
Qed.

Lemma arrayify_getChecksumAddress (address : string) (bs : list byte) :
  arrayify address = Some bs → arrayify (getChecksumAddress address) = Some bs.
Proof.
  intros H. rewrite (getChecksumAddress_bytes _ _ H).
  rewrite !append_cons, append_nil_l. cbn [arrayify].
  transitivity (hexToBytes (bytesHex bs)); [|apply hexToBytes_bytesHex].
  apply hexToBytes_ext.
  by rewrite list_ascii_of_string_of_list_ascii, digits_checksumCase.
Qed.

Lemma hexDigit_not_upper (n : N) :
  ((65 <=? N_of_ascii (hexDigit n)) && (N_of_ascii (hexDigit n) <=? 70))%N = false.
Proof.
  unfold hexDigit. generalize (N.to_nat n). intros k.
  do 16 (destruct k as [|k]; [reflexivity|]). by destruct k.
Qed.

Lemma bytesHex_not_upper (bs : list byte) :
  existsb (λ n, (65 <=? n) && (n <=? 70))%N
          (N_of_ascii <$> list_ascii_of_string (bytesHex bs)) = false.
Proof.
  induction bs as [|b bs IH]; [done|].
  rewrite bytesHex_cons. unfold byteHex. rewrite !append_cons, append_nil_l.
  cbn [list_ascii_of_string fmap list_fmap existsb].
  by rewrite !hexDigit_not_upper, (IH).
Qed.

Lemma mixedCase_hexlify (bs : list byte) : mixedCase (hexlify bs) = false.
Proof.
  unfold mixedCase, hexlify. rewrite !append_cons, append_nil_l.
  cbn [list_ascii_of_string fmap list_fmap existsb].
  change (fmap N_of_ascii) with (@fmap list _ _ _ N_of_ascii).
  by rewrite bytesHex_not_upper.
Qed.

Lemma getAddress_inv (s a : string) :
  getAddress s = Some a →
  ∃ address bs,
    arrayify address = Some bs ∧ length bs = 20%nat ∧ a = getChecksumAddress address.
Proof.
  unfold getAddress.
  generalize (if (String.length s =? 40)%nat then "0x" +:+ s else s). intros address H.
  destruct (isHexString address && (String.length address =? 42)%nat) eqn:Hok; [|done].
  apply andb_true_iff in Hok as [Hhex Hlen%Nat.eqb_eq].
  destruct (arrayify_total address) as [bs Hbs]; [done | by rewrite Hlen |].
  exists address, bs. pose proof (arrayify_Some _ _ Hbs) as [_ Hl].
  repeat split; [done | lia |]. by case_match; simplify_eq.
Qed.

Lemma getAddress_hexlify (bs : list byte) :
  length bs = 20%nat → getAddress (hexlify bs) = Some (getChecksumAddress (hexlify bs)).
Proof.
  intros Hlen. unfold getAddress.
  rewrite length_hexlify, Hlen.
  change (2 + 2 * 20 =? 40)%nat with false. cbv iota.
  rewrite length_hexlify, Hlen.
  change (2 + 2 * 20 =? 42)%nat with true.
  by rewrite isHexString_hexlify, mixedCase_hexlify.
Qed.

Lemma BigNumber_from_hex (s : string) (bs : list byte) :
  arrayify s = Some bs → bs ≠ [] → BigNumber_from (VString s) = Some (beValue bs).
Proof.
  intros (hex & -> & Hhex)%arrayify_inv Hne.
  pose proof (hexToBytes_Some _ _ Hhex) as [Hlen Hdigits].
  rewrite !append_cons, append_nil_l. cbn [BigNumber_from parseUnsigned].
  assert (hex ≠ "") as Hhexne by (intros ->; destruct bs; [done | simpl in Hlen; lia]).
  rewrite Hdigits, (proj2 (String.eqb_neq _ _) Hhexne). cbn.
  by rewrite (hexValue_bytes hex bs).
Qed.

Lemma getAddress_bytes (s a : string) :
  getAddress s = Some a →
  ∃ bs, arrayify a = Some bs ∧ length bs = 20%nat
        ∧ (arrayify s = Some bs ∨ arrayify ("0x" +:+ s) = Some bs).
Proof.
  unfold getAddress.
  assert (∀ address,
            (if isHexString address && (String.length address =? 42)%nat
             then if mixedCase address
                     && negb (getChecksumAddress address =? address)%string
                  then None else Some (getChecksumAddress address)
             else None) = Some a →
            ∃ bs, arrayify a = Some bs ∧ length bs = 20%nat
                  ∧ arrayify address = Some bs) as Haddress.
  { intros address H.
    destruct (isHexString address && (String.length address =? 42)%nat) eqn:Hok;
      [|done].
    apply andb_true_iff in Hok as [Hhex Hlen%Nat.eqb_eq].
    destruct (arrayify_total address) as [bs Hbs]; [done | by rewrite Hlen |].
    exists bs. pose proof (arrayify_Some _ _ Hbs) as [_ Hl].
    assert (a = getChecksumAddress address) as -> by (by case_match; simplify_eq).
    repeat split; [by apply arrayify_getChecksumAddress | lia | done]. }
  destruct (String.length s =? 40)%nat; intros H;
    destruct (Haddress _ H) as (bs & ? & ? & ?); eauto 6.
Qed.

Lemma AddressCoder_encode (s a : string) (bs : list byte) :
  getAddress s = Some a → arrayify a = Some bs →
  encode AddressCoder (VString s) = Some (beBytes 32 (beValue bs)).
Proof.
  intros Hs Ha. destruct (getAddress_bytes _ _ Hs) as (bs' & Ha' & Hlen & _).
  simplify_eq. pose proof (beValue_range bs) as Hrange. rewrite Hlen in Hrange.
  change (256 ^ Z.of_nat 20) with (2 ^ 160) in Hrange.
  assert (2 ^ 160 ≤ 2 ^ 256) by (apply Z.pow_le_mono_r; lia).
  cbn [encode AddressCoder]. rewrite Hs. cbn [mbind option_bind].
  unfold writeValue. rewrite (BigNumber_from_hex _ bs) by (done || by destruct bs).
  cbn [mbind option_bind]. by rewrite in_range_true by lia.
Qed.

Lemma AddressCoder_roundtrip (s a : string) :
  getAddress s = Some a →
  ∃ enc, encode AddressCoder (VString s) = Some enc
         ∧ readsBack AddressCoder enc (VString a).
Proof.
  intros Hs. destruct (getAddress_inv _ _ Hs) as (address & bs & Hbs & Hlen & ->).
  pose proof (arrayify_getChecksumAddress _ _ Hbs) as Ha.
  pose proof (beValue_range bs) as Hrange. rewrite Hlen in Hrange.
  change (256 ^ Z.of_nat 20) with (2 ^ 160) in Hrange.
  assert (2 ^ 160 ≤ 2 ^ 256) by (apply Z.pow_le_mono_r; lia).
  exists (beBytes 32 (beValue bs)). unfold readsBack.
  cbn [dynamic encode decode AddressCoder]. rewrite Hs. cbn [mbind option_bind].
  unfold writeValue. rewrite (BigNumber_from_hex _ bs) by (done || by destruct bs).
  cbn [mbind option_bind]. rewrite in_range_true by lia.
  split; [done|]. split; [apply length_beBytes|].
  intros rest. rewrite readValue_word by lia. cbn [mbind option_bind].
  rewrite (proj2 (Z.ltb_lt _ _)) by lia.
  rewrite <- Hlen at 1. rewrite beBytes_beValue, getAddress_hexlify by done.
  cbn [mbind option_bind]. do 3 f_equal.
  by rewrite (getChecksumAddress_bytes _ _ Hbs),
    (getChecksumAddress_bytes _ _ (arrayify_hexlify bs)).
Qed.

End AddressFacts.

(* ===================================================================== *)
(** ** Encoding and decoding argument lists                              *)
(* ===================================================================== *)

Section TupleFacts.

Lemma canonical_getCoder (p : ParamType) (v v' : Value) :
  canonical (type p) v = Some v' → is_Some (_getCoder p).
Proof.
  unfold _getCoder. destruct (type p); cbn [canonical]; try by eauto.
  - intros H. simplify_option_eq. case_match eqn:E; [|done].
    apply andb_true_iff in E as [[-> _]%andb_true_iff _]. by eauto.
  - intros H. simplify_option_eq. case_match eqn:E; [|done].
    apply andb_true_iff in E as [[-> _]%andb_true_iff _]. by eauto.
  - intros H. destruct v; try done. simplify_option_eq. case_match eqn:E; [|done].
    apply andb_true_iff in E as [-> _]. by eauto.
Qed.

(** Every coder writes a value of its type, and what it wrote reads back
    as the canonical form of the value. *)
Lemma coder_roundtrip (p : ParamType) (c : Coder) (v v' : Value) :
  _getCoder p = Some c → canonical (type p) v = Some v' →
  ∃ bs, encode c v = Some bs ∧ readsBack c bs v'.
Proof.
  unfold _getCoder. destruct (type p) as [| | | |bits|bits|size]; cbn [canonical];
    intros Hc Hv.
  - simplify_eq. destruct v; try done.
    destruct (getAddress s) as [a|] eqn:Ha; [|done]. cbn in Hv. simplify_eq.
    by apply AddressCoder_roundtrip.
  - simplify_eq. apply BooleanCoder_roundtrip.
  - simplify_eq. destruct v; try done.
    destruct (toUtf8Bytes s) as [bs|] eqn:Hs; [|done]. cbn in Hv. simplify_eq.
    by apply (StringCoder_roundtrip s bs).
  - simplify_eq. destruct v; try done.
    destruct (arrayify s) as [bs|] eqn:Hs; [|done]. cbn in Hv. simplify_eq.
    by apply BytesCoder_roundtrip.
  - destruct (BigNumber_from v) as [z|] eqn:Hz; [|done]. cbn in Hv.
    destruct (validSize bits) eqn:Hsize; [|done]. simplify_eq.
    cbn [andb] in Hv. case_match eqn:E; [|done]. simplify_eq.
    apply andb_true_iff in E as [?%Z.leb_le ?%Z.ltb_lt].
    eexists. by apply NumberCoder_unsigned.
  - destruct (BigNumber_from v) as [z|] eqn:Hz; [|done]. cbn in Hv.
    destruct (validSize bits) eqn:Hsize; [|done]. simplify_eq.
    cbn [andb] in Hv. case_match eqn:E; [|done]. simplify_eq.
    apply andb_true_iff in E as [?%Z.leb_le ?%Z.ltb_lt].
    by apply NumberCoder_signed.
  - destruct v; try done.
    destruct (arrayify s) as [bs|] eqn:Hs; [|done]. cbn in Hv.
    destruct ((0 <? size) && (size <=? 32)) eqn:Hsize; [|done]. simplify_eq.
    cbn [andb] in Hv. case_match eqn:E; [|done]. simplify_eq.
    apply andb_true_iff in Hsize as [?%Z.ltb_lt ?%Z.leb_le]. apply Z.eqb_eq in E.
    by apply FixedBytesCoder_roundtrip.
Qed.

Lemma length_packHeads (staticLength dynamicOffset : nat)
  (parts : list (bool * list byte)) :
  length (packHeads staticLength dynamicOffset parts)
  = sum_list (headLength <$> parts).
Proof.
  revert dynamicOffset. induction parts as [|[[] bs] parts IH]; intros d; [done | |].
  - cbn [packHeads fmap list_fmap sum_list sum_list_with headLength fst snd].
    rewrite length_app, IH. unfold writeLength. by rewrite length_beBytes.
  - cbn [packHeads fmap list_fmap sum_list sum_list_with headLength fst snd].
    by rewrite length_app, IH.
Qed.

Lemma packTails_cons_dynamic (bs : list byte) (parts : list (bool * list byte)) :
  packTails ((true, bs) :: parts) = bs ++ packTails parts.
Proof. unfold packTails. by rewrite filter_cons_True. Qed.

Lemma packTails_cons_static (bs : list byte) (parts : list (bool * list byte)) :
  packTails ((false, bs) :: parts) = packTails parts.
Proof. unfold packTails. by rewrite filter_cons_False. Qed.

(** Unpacking in the middle of a packed tuple: [pre] is the static area
    already read, [tails] the dynamic area already written. *)
Lemma abiUnpack_parts (coders : list Coder) (canon : list Value)
  (parts : list (bool * list byte)) (staticLength : nat) :
  Forall3 (λ c v' part, part.1 = dynamic c ∧ readsBack c part.2 v')
          coders canon parts →
  ∀ pre tails : list byte,
    (length pre + length (packHeads staticLength (length tails) parts))%nat
    = staticLength →
    Z.of_nat (staticLength + length tails + length (packTails parts)) < 2 ^ 256 →
    abiUnpack coders
      (pre ++ packHeads staticLength (length tails) parts ++ tails ++ packTails parts)
      (packHeads staticLength (length tails) parts ++ tails ++ packTails parts)
    = Some canon.
Proof.
  induction 1 as [|c v' [d bs] coders canon parts [Hd Hback] _ IH];
    intros pre tails Hstatic Hsize; [done|].
  cbn [fst snd] in Hd, Hback. subst d. unfold readsBack in Hback.
  cbn [abiUnpack]. destruct (dynamic c) eqn:Hdyn.
  - rewrite packTails_cons_dynamic in *. rewrite length_app in Hsize.
    cbn [packHeads] in *. unfold writeLength in *.
    set (heads := packHeads staticLength (length tails + length bs) parts) in *.
    rewrite length_app, length_beBytes in Hstatic.
    rewrite <- !app_assoc. rewrite readValue_word by lia.
    cbn [mbind option_bind]. rewrite Nat2Z.id.
    set (w := beBytes 32 (Z.of_nat (staticLength + length tails))) in *.
    assert (length w = 32%nat) as Hw by apply length_beBytes.
    assert (drop (staticLength + length tails)
              (pre ++ w ++ heads ++ tails ++ bs ++ packTails parts)
            = bs ++ packTails parts) as ->.
    { rewrite !app_assoc. rewrite <- (app_assoc _ bs).
      apply drop_app_length'. rewrite !length_app. lia. }
    destruct (Hback ltac:(lia) (packTails parts)) as [rest' ->].
    cbn [mbind option_bind].
    specialize (IH (pre ++ w) (tails ++ bs)).
    rewrite !length_app in IH. fold heads in IH.
    rewrite <- !app_assoc in IH. rewrite IH by lia. done.
  - rewrite packTails_cons_static in *.
    cbn [packHeads] in *. rewrite length_app in Hstatic.
    destruct Hback as [Hlen Hback]. rewrite <- app_assoc, Hback.
    cbn [mbind option_bind].
    specialize (IH (pre ++ bs) tails). rewrite length_app, <- !app_assoc in IH.
    rewrite IH by lia. done.
Qed.

Lemma abiPack_roundtrip (types : list ParamType) (coders : list Coder)
  (values canon : list Value) :
  Forall3 (λ p v v', canonical (type p) v = Some v') types values canon →
  mapM _getCoder types = Some coders →
  ∃ packed,
    abiPack coders values = Some packed
    ∧ (Z.of_nat (length packed) < 2 ^ 256 → abiUnpack coders packed packed = Some canon).
Proof.
  intros Hcanon Hcoders.
  assert (∃ parts,
            mapM (λ '(c, v), bs ← encode c v; Some (dynamic c, bs)) (zip coders values)
            = Some parts
            ∧ Forall3 (λ c v' part, part.1 = dynamic c ∧ readsBack c part.2 v')
                      coders canon parts) as (parts & Hparts & Hback).
  { apply mapM_Some in Hcoders. revert coders Hcoders.
    induction Hcanon as [|p v v' types values canon Hv _ IH]; intros coders Hcoders.
    - apply Forall2_nil_inv_l in Hcoders as ->. exists []. split; [done | constructor].
    - apply Forall2_cons_inv_l in Hcoders as (c & coders' & Hc & Hcoders & ->).
      destruct (IH coders' Hcoders) as (parts & Hparts & Hback).
      destruct (coder_roundtrip p c v v' Hc Hv) as (bs & Hbs & Hread).
      exists ((dynamic c, bs) :: parts). split.
      + cbn [zip zip_with mapM]. rewrite Hbs. cbn [mbind option_bind].
        by rewrite Hparts.
      + by constructor. }
  unfold abiPack.
  assert (length coders = length values) as Hlen.
  { rewrite <- (length_mapM _ _ _ Hcoders). by eapply Forall3_length_lm. }
  rewrite Hlen, Nat.eqb_refl, Hparts. cbn [mbind option_bind].
  eexists. split; [done|]. intros Hsize.
  pose proof (abiUnpack_parts coders canon parts
                (sum_list (headLength <$> parts)) Hback [] []) as H.
  cbn [app length] in H. apply H; [apply length_packHeads|].
  rewrite length_app, length_packHeads in Hsize. lia.
Qed.

(** [AbiCoder.decode] after [AbiCoder.encode] gives the canonical forms of
    the values. *)
Lemma AbiCoder_roundtrip (types : list ParamType) (values canon : list Value) :
  Forall3 (λ p v v', canonical (type p) v = Some v') types values canon →
  ∃ packed,
    AbiCoder_encode types values = Some packed
    ∧ (Z.of_nat (length packed) < 2 ^ 256 → AbiCoder_decode types packed = Some canon).
Proof.
  intros Hcanon.
  assert (is_Some (mapM _getCoder types)) as [coders Hcoders].
  { apply mapM_is_Some. clear -Hcanon.
    induction Hcanon; constructor; eauto using canonical_getCoder. }
  destruct (abiPack_roundtrip _ _ _ _ Hcanon Hcoders) as (packed & Hpack & Hunpack).
  exists packed. unfold AbiCoder_encode, AbiCoder_decode.
  rewrite (Forall3_length_lm _ _ _ _ Hcanon), Nat.eqb_refl, Hcoders.
  cbn [mbind option_bind]. done.
Qed.

End TupleFacts.

(* ===================================================================== *)
(** ** Interfaces: finding a function, encoding and decoding a call      *)
(* ===================================================================== *)

Section InterfaceFacts.

Lemma length_keccak256 (msg : list byte) : length (Keccak.keccak256 msg) = 32%nat.
Proof. unfold Keccak.keccak256. cbv zeta. by rewrite List.length_map, List.length_seq. Qed.

Lemma length_sighashBytes (f : FunctionFragment) : length (sighashBytes f) = 4%nat.
Proof. unfold sighashBytes. rewrite length_take, length_keccak256. done. Qed.

Lemma index_paren (a b : string) : is_Some (String.index 0 "(" (a +:+ "(" +:+ b)).
Proof.
  induction a as [|c a [n IH]].
  - rewrite append_nil_l, append_cons, append_nil_l. cbn [String.index prefix].
    destruct (ascii_dec "(" "(") as [_|?]; [|done]. destruct b; by eexists.
  - rewrite append_cons. cbn [String.index]. rewrite IH.
    case_match; by eexists.
Qed.



Lemma new_Interface_keys (fragments : list FunctionFragment) (k : string)
  (f : FunctionFragment) :
  functions (new_Interface fragments) !! k = Some f → k = format f.
Proof.
  unfold new_Interface. cbn [functions].
  assert (∀ m : gmap string FunctionFragment,
            (∀ k f, m !! k = Some f → k = format f) →
            ∀ k f,
              fold_left (λ m f, match m !! format f with
                                | Some _ => m
                                | None => <[format f:=f]> m
                                end) fragments m !! k = Some f →
              k = format f) as H.
  { induction fragments as [|g fragments IH]; intros m Hm k' f'; [apply Hm|].
    cbn [fold_left]. apply IH. intros k'' f''.
    destruct (m !! format g) eqn:Hg; [apply Hm|].
    intros [[<- <-]|[_ ?]]%lookup_insert_Some; [done | by apply Hm]. }
  apply H. intros k' f'. by rewrite lookup_empty.
Qed.


Lemma encodeFunctionData_bytes (iface : Interface) (sig : string)
  (f : FunctionFragment) (values : list Value) (packed : list byte) :
  getFunction iface sig = Some f →
  AbiCoder_encode (inputs f) values = Some packed →
  encodeFunctionData iface sig values = Some (hexlify (sighashBytes f ++ packed)).
Proof.
  intros Hf Hpacked. unfold encodeFunctionData, _encodeParams, getSighash.
  rewrite Hf. cbn [mbind option_bind].
  by rewrite arrayify_hexlify, Hpacked.
Qed.

Lemma decodeFunctionData_bytes (iface : Interface) (sig : string)
  (f : FunctionFragment) (packed : list byte) :
  getFunction iface sig = Some f →
  decodeFunctionData iface sig (hexlify (sighashBytes f ++ packed))
  = AbiCoder_decode (inputs f) packed.
Proof.
  intros Hf. unfold decodeFunctionData, _decodeParams, getSighash.
  rewrite Hf. cbn [mbind option_bind]. rewrite arrayify_hexlify.
  cbn [mbind option_bind].
  rewrite take_app_length', drop_app_length' by (by rewrite length_sighashBytes).
  by rewrite String.eqb_refl.
Qed.

(** Decoding the data of a call gives the canonical forms of its
    arguments. *)
Lemma functionData_roundtrip (iface : Interface) (sig : string)
  (f : FunctionFragment) (values canon : list Value) :
  getFunction iface sig = Some f →
  Forall3 (λ p v v', canonical (type p) v = Some v') (inputs f) values canon →
  ∃ data,
    encodeFunctionData iface sig values = Some data
    ∧ (Z.of_nat (String.length data) < 2 ^ 256 →
       decodeFunctionData iface sig data = Some canon).
Proof.
  intros Hf Hcanon.
  destruct (AbiCoder_roundtrip _ _ _ Hcanon) as (packed & Henc & Hdec).
  exists (hexlify (sighashBytes f ++ packed)).
  split; [by apply encodeFunctionData_bytes|].
  intros Hsize. rewrite (decodeFunctionData_bytes _ _ f) by done.
  apply Hdec. rewrite length_hexlify, length_app in Hsize. lia.
Qed.

End InterfaceFacts.

(* ===================================================================== *)
(** ** The batch encoder                                                 *)
(* ===================================================================== *)

Section BatchFacts.

Lemma multiSend_getFunction :
  getFunction (new_Interface MULTI_SEND_ABI) "multiSend"
  = Some {| fname := "multiSend";
            inputs := [ {| name := "transactions"; type := TBytes |} ] |}.
Proof. vm_compute. reflexivity. Qed.

Lemma multiSend_sighash :
  sighashBytes {| fname := "multiSend";
                  inputs := [ {| name := "transactions"; type := TBytes |} ] |}
  = [x8d; x80; xff; x0a].
Proof. vm_compute. reflexivity. Qed.

(** The data of a [multiSend] call on a blob. *)
Lemma multiSend_encodeFunctionData (blob : list byte) :
  encodeFunctionData (new_Interface MULTI_SEND_ABI) "multiSend"
    [VString (hexlify blob)]
  = Some (multiSendCalldata blob).
Proof.
  erewrite encodeFunctionData_bytes; [| apply multiSend_getFunction |].
  - by rewrite multiSend_sighash.
  - unfold AbiCoder_encode, abiPack.
    cbn [inputs length Nat.eqb mapM _getCoder type mbind option_bind mret
         option_ret zip zip_with encode BytesCoder dynamic].
    rewrite arrayify_hexlify.
    cbn [fmap option_fmap option_map mbind option_bind mret option_ret].
    rewrite packTails_cons_dynamic.
    cbn [packHeads fmap list_fmap sum_list sum_list_with headLength fst snd].
    unfold packTails, writeLength, encodeDynamicBytes, writeLength.
    cbn [filter list_filter fmap list_fmap concat]. by rewrite !app_nil_r.
Qed.

Lemma relayAddress_js_or (override : option string) :
  js_or (Some (default MULTI_SEND_CONTRACT_ADDRESS override))
        MULTI_SEND_CONTRACT_ADDRESS
  = relayAddress override.
Proof. by destruct override as [[|c s]|]. Qed.

(** What [encodeMultiSend] returns when each transaction packs. *)
Lemma encodeMultiSend_bytes (transactions : list TransactionInput)
  (packed : list (list byte)) (override : option string) :
  Forall2 (λ tx bs, encodePacked tx = Some (hexlify bs)) transactions packed →
  encodeMultiSend transactions override
  = Some {| operation := DELEGATE_CALL;
            to := relayAddress override;
            value := 0;
            data := multiSendCalldata (concat packed) |}.
Proof.
  intros Hpacked. unfold encodeMultiSend.
  assert (mapM encodePacked transactions = Some (hexlify <$> packed)) as ->.
  { apply mapM_Some. by apply Forall2_fmap_r. }
  cbn [mbind option_bind].
  rewrite glue_hexlify, multiSend_encodeFunctionData.
  cbn [mbind option_bind]. by rewrite relayAddress_js_or.
Qed.

(** The packed bytes of valid inputs, one record each. *)
Lemma validInputs_packed (transactions : list TransactionInput) :
  forallb validInput transactions = true →
  ∃ records : list Layout.PackedRecord,
    Forall2 (λ tx r,
               encodePacked tx = Some (hexlify (Layout.serialize r))
               ∧ Layout.fitsLayout r
               ∧ Layout.rec_operation r = operation (coerceTransactionInput tx)
               ∧ arrayify (to (coerceTransactionInput tx)) = Some (Layout.rec_to r)
               ∧ Layout.rec_value r = value (coerceTransactionInput tx)
               ∧ arrayify (data (coerceTransactionInput tx)) = Some (Layout.rec_data r))
            transactions records.
Proof.
  induction transactions as [|tx transactions IH]; intros Hvalid.
  - exists []. constructor.
  - cbn [forallb] in Hvalid. apply andb_true_iff in Hvalid as [Htx Hrest].
    destruct (IH Hrest) as [records Hrecords].
    destruct (validInput_bytes tx Htx)
      as (toBytes & dataBytes & Hto & Hlen & Hdata & Hvalue & Hsize).
    eexists (_ :: records). constructor; [|exact Hrecords].
    split; [by apply encodePacked_bytes|].
    unfold Layout.fitsLayout. cbn [Layout.rec_operation Layout.rec_to
      Layout.rec_value Layout.rec_data].
    unfold MAX_SAFE in Hsize. repeat split; try done; lia.
Qed.

End BatchFacts.

(* ===================================================================== *)
(** ** The single-call encoder                                           *)
(* ===================================================================== *)

Section SingleFacts.
Import EncodeSingle.

Lemma erc20_getFunction :
  getFunction erc20Interface "transfer(address,uint256)"
  = Some {| fname := "transfer";
            inputs := [ {| name := "recipient"; type := TAddress |};
                        {| name := "amount"; type := TUint 256 |} ] |}.
Proof. vm_compute. reflexivity. Qed.

Lemma erc20_sighash :
  sighashBytes {| fname := "transfer";
                  inputs := [ {| name := "recipient"; type := TAddress |};
                              {| name := "amount"; type := TUint 256 |} ] |}
  = [xa9; x05; x9c; xbb].
Proof. vm_compute. reflexivity. Qed.

(** The data of a token transfer, byte by byte. *)
Lemma encodeErc20Transfer_bytes (tx : TransferFundsTransactionInput)
  (a : string) (bs : list byte) :
  getAddress (tf_to tx) = Some a → arrayify a = Some bs →
  0 ≤ tf_amount tx < 2 ^ 256 →
  encodeErc20Transfer tx
  = Some (hexlify ([xa9; x05; x9c; xbb]
                   ++ beBytes 32 (beValue bs) ++ beBytes 32 (tf_amount tx))).
Proof.
  intros Hto Ha Hamount. unfold encodeErc20Transfer.
  erewrite encodeFunctionData_bytes; [| apply erc20_getFunction |].
  - by rewrite erc20_sighash.
  - unfold AbiCoder_encode, abiPack.
    cbn [inputs length Nat.eqb mapM _getCoder type mbind option_bind mret
         option_ret zip zip_with].
    change (validSize 256) with true. cbv iota.
    cbn [mbind option_bind mret option_ret length Nat.eqb zip zip_with mapM].
    rewrite (AddressCoder_encode _ a bs) by done.
    destruct (NumberCoder_unsigned 256 (VBigNumber (tf_amount tx)) (tf_amount tx))
      as [-> _]; [done | done | done |].
    cbn [mbind option_bind mret option_ret dynamic AddressCoder NumberCoder].
    rewrite !packTails_cons_static.
    cbn [packHeads fmap list_fmap sum_list sum_list_with headLength fst snd].
    unfold packTails. cbn [filter list_filter fmap list_fmap concat].
    by rewrite !app_nil_r.
Qed.



End SingleFacts.

(* ===================================================================== *)
(** ** The claims                                                        *)
(* ===================================================================== *)

(** C1 fails for [encodeMultiSend]: a list of one transaction is wrapped
    like any other, into a DELEGATE_CALL to the relay contract, and is not
    the transaction's own call. *)
Lemma encodeMultiSend_single_is_wrapped :
  EncodeSingle.encodeSingle (asRaw exampleCall1)
  = Some {| EncodeSingle.to := "0xAA00000000000000000000000000000000000001";
            EncodeSingle.value := 1;
            EncodeSingle.data := "0x" |}
  ∧ ∃ m, encodeMultiSend [exampleCall1] None = Some m
         ∧ operation m = DELEGATE_CALL
         ∧ to m = MULTI_SEND_CONTRACT_ADDRESS
         ∧ value m = 0
         ∧ m ≠ coerceTransactionInput exampleCall1.
Proof.
  split; [reflexivity|].
  eexists. split; [vm_compute; reflexivity|].
  repeat split; try reflexivity. discriminate.
Qed.

(** C1, amended. For a list of one transaction [x] it is the dispatcher
    [MultiSender.multiSend] that skips the relay: it hands to
    [execTransactionFromModule] the call of [x] itself, with the [to] of
    [x], its value (0 by default), its data ([0x] by default) -- the fields
    [encodeSingle] gives for the same raw call -- and its operation (CALL
    by default). *)
Theorem multiSend_single_passthrough {Overrides Response : Type}
  (execTransactionFromModule :
     MultiSender → string → Z → string → Operation → Overrides → Response)
  (this : MultiSender) (x : TransactionInput) (overrides : Overrides) :
  multiSend execTransactionFromModule this [x] overrides
  = Some (execTransactionFromModule this
            (in_to x) (js_or (in_value x) 0) (js_or (in_data x) "0x")
            (js_or (in_operation x) CALL) overrides)
  ∧ coerceTransactionInput x
    = {| operation := js_or (in_operation x) CALL;
         to := in_to x;
         value := js_or (in_value x) 0;
         data := js_or (in_data x) "0x" |}
  ∧ EncodeSingle.encodeSingle (asRaw x)
    = Some {| EncodeSingle.to := in_to x;
              EncodeSingle.value := js_or (in_value x) 0;
              EncodeSingle.data := js_or (in_data x) "0x" |}
  ∧ js_or (None : option Operation) CALL = CALL
  ∧ js_or (None : option Z) 0 = 0
  ∧ js_or (None : option string) "0x" = "0x".
Proof. repeat split. Qed.






(** C4. For a list of two or more transactions that pack, the result of
    [encodeMultiSend] is a DELEGATE_CALL to the relay contract whose data
    is the ABI encoding of [multiSend(bytes)] applied to the concatenation
    of all the packed records. *)
Theorem encodeMultiSend_relay_call (transactions : list TransactionInput)
  (packed : list (list byte)) (override : option string) :
  (2 ≤ length transactions)%nat →
  Forall2 (λ tx bs, encodePacked tx = Some (hexlify bs)) transactions packed →
  encodeMultiSend transactions override
  = Some {| operation := DELEGATE_CALL;
            to := relayAddress override;
            value := 0;
            data := multiSendCalldata (concat packed) |}
  ∧ encodeFunctionData (new_Interface MULTI_SEND_ABI) "multiSend"
      [VString (hexlify (concat packed))]
    = Some (multiSendCalldata (concat packed)).
Proof.
  intros _ Hpacked. split; [by apply encodeMultiSend_bytes|].
  apply multiSend_encodeFunctionData.
Qed.

Lemma encodeMultiSend_relay_call_witness :
  (2 ≤ length [exampleCall1; exampleCall2])%nat
  ∧ Forall2 (λ tx bs, encodePacked tx = Some (hexlify bs))
      [exampleCall1; exampleCall2]
      [ x00 :: default [] (arrayify (in_to exampleCall1))
            ++ beBytes 32 1 ++ beBytes 32 0;
        x00 :: default [] (arrayify (in_to exampleCall2))
            ++ beBytes 32 0 ++ beBytes 32 2 ++ [x12; x34] ]
  ∧ (encodeMultiSend [exampleCall1; exampleCall2] None
     = Some {| operation := DELEGATE_CALL;
               to := relayAddress None;
               value := 0;
               data := multiSendCalldata
                         (concat
                            [ x00 :: default [] (arrayify (in_to exampleCall1))
                                  ++ beBytes 32 1 ++ beBytes 32 0;
                              x00 :: default [] (arrayify (in_to exampleCall2))
                                  ++ beBytes 32 0 ++ beBytes 32 2 ++ [x12; x34] ]) |}
     ∧ encodeFunctionData (new_Interface MULTI_SEND_ABI) "multiSend"
         [VString (hexlify
            (concat
               [ x00 :: default [] (arrayify (in_to exampleCall1))
                     ++ beBytes 32 1 ++ beBytes 32 0;
                 x00 :: default [] (arrayify (in_to exampleCall2))
                     ++ beBytes 32 0 ++ beBytes 32 2 ++ [x12; x34] ]))]
       = Some (multiSendCalldata
                 (concat
                    [ x00 :: default [] (arrayify (in_to exampleCall1))
                          ++ beBytes 32 1 ++ beBytes 32 0;
                      x00 :: default [] (arrayify (in_to exampleCall2))
                          ++ beBytes 32 0 ++ beBytes 32 2 ++ [x12; x34] ]))).
Proof.
  assert (Forall2 (λ tx bs, encodePacked tx = Some (hexlify bs))
            [exampleCall1; exampleCall2]
            [ x00 :: default [] (arrayify (in_to exampleCall1))
                  ++ beBytes 32 1 ++ beBytes 32 0;
              x00 :: default [] (arrayify (in_to exampleCall2))
                  ++ beBytes 32 0 ++ beBytes 32 2 ++ [x12; x34] ]) as Hpacked.
  { constructor; [vm_compute; reflexivity|].
    constructor; [vm_compute; reflexivity|]. constructor. }
  split; [cbn [length]; lia|]. split; [exact Hpacked|].
  apply (encodeMultiSend_relay_call [exampleCall1; exampleCall2]);
    [cbn [length]; lia | exact Hpacked].
Defined.

(** C5. A transfer of funds with no token encodes to the recipient as
    [to], the amount as value and the empty byte string [0x] as data. *)
Theorem encodeSingle_native_transfer (recipient : string) (amount : Z) :
  EncodeSingle.encodeSingle
    (EncodeSingle.transferFunds
       {| EncodeSingle.tf_to := recipient;
          EncodeSingle.tf_amount := amount;
          EncodeSingle.tf_token := None |})
  = Some {| EncodeSingle.to := recipient;
            EncodeSingle.value := amount;
            EncodeSingle.data := "0x" |}
  ∧ arrayify "0x" = Some [].
Proof. split; reflexivity. Qed.

(** C6. A transfer of funds in a token, to a valid address [a] (in its
    checksum spelling) and of an amount that fits 256 bits, encodes to the
    token as [to] and 0 as value; decoding its data against
    [transfer(address,uint256)] gives back the recipient and the amount. *)
Theorem encodeSingle_erc20_roundtrip
  (tx : EncodeSingle.TransferFundsTransactionInput) (token a : string) :
  EncodeSingle.tf_token tx = Some token →
  getAddress (EncodeSingle.tf_to tx) = Some a →
  0 ≤ EncodeSingle.tf_amount tx < 2 ^ 256 →
  ∃ (calldata : string) (addressBytes : list byte),
    EncodeSingle.encodeSingle (EncodeSingle.transferFunds tx)
    = Some {| EncodeSingle.to := token;
              EncodeSingle.value := 0;
              EncodeSingle.data := calldata |}
    ∧ decodeFunctionData EncodeSingle.erc20Interface "transfer(address,uint256)"
        calldata
      = Some [VString a; VBigNumber (EncodeSingle.tf_amount tx)]
    ∧ arrayify a = Some addressBytes
    ∧ length addressBytes = 20%nat
    ∧ (arrayify (EncodeSingle.tf_to tx) = Some addressBytes
       ∨ arrayify ("0x" +:+ EncodeSingle.tf_to tx) = Some addressBytes)
    ∧ calldata
      = hexlify ([xa9; x05; x9c; xbb]
                 ++ beBytes 32 (beValue addressBytes)
                 ++ beBytes 32 (EncodeSingle.tf_amount tx)).
Proof.
  intros Htoken Hto Hamount.
  destruct (getAddress_bytes _ _ Hto) as (bs & Ha & Hlen & Hsame).
  pose proof (encodeErc20Transfer_bytes tx a bs Hto Ha Hamount) as Henc.
  eexists _, bs. split.
  { cbn [EncodeSingle.encodeSingle]. rewrite Htoken, Henc. reflexivity. }
  split; [|split; [exact Ha|split; [exact Hlen|split; [exact Hsame|reflexivity]]]].
  destruct (functionData_roundtrip EncodeSingle.erc20Interface
              "transfer(address,uint256)" _
              [VString (EncodeSingle.tf_to tx); VBigNumber (EncodeSingle.tf_amount tx)]
              [VString a; VBigNumber (EncodeSingle.tf_amount tx)]
              erc20_getFunction) as (data' & Hdata' & Hdecode).
  { constructor; [|constructor; [|constructor]]; cbn [inputs type canonical].
    - by rewrite Hto.
    - cbn [BigNumber_from mbind option_bind]. change (validSize 256) with true.
      cbn [andb]. by rewrite in_range_true. }
  unfold EncodeSingle.encodeErc20Transfer in Henc. rewrite Henc in Hdata'.
  apply (inj Some) in Hdata'. subst data'. apply Hdecode.
  rewrite length_hexlify, !length_app, !length_beBytes. cbn [length]. lia.
Qed.

Lemma encodeSingle_erc20_roundtrip_witness :
  EncodeSingle.tf_token exampleTransfer
  = Some "0x6B175474E89094C44Da98b954EedeAC495271d0F"
  ∧ getAddress (EncodeSingle.tf_to exampleTransfer)
    = Some "0x8D29bE29923b68abfDD21e541b9374737B49cdAD"
  ∧ 0 ≤ EncodeSingle.tf_amount exampleTransfer < 2 ^ 256
  ∧ ∃ (calldata : string) (addressBytes : list byte),
      EncodeSingle.encodeSingle (EncodeSingle.transferFunds exampleTransfer)
      = Some {| EncodeSingle.to := "0x6B175474E89094C44Da98b954EedeAC495271d0F";
                EncodeSingle.value := 0;
                EncodeSingle.data := calldata |}
      ∧ decodeFunctionData EncodeSingle.erc20Interface
          "transfer(address,uint256)" calldata
        = Some [VString "0x8D29bE29923b68abfDD21e541b9374737B49cdAD";
                VBigNumber (EncodeSingle.tf_amount exampleTransfer)]
      ∧ arrayify "0x8D29bE29923b68abfDD21e541b9374737B49cdAD" = Some addressBytes
      ∧ length addressBytes = 20%nat
      ∧ (arrayify (EncodeSingle.tf_to exampleTransfer) = Some addressBytes
         ∨ arrayify ("0x" +:+ EncodeSingle.tf_to exampleTransfer) = Some addressBytes)
      ∧ calldata
        = hexlify ([xa9; x05; x9c; xbb]
                   ++ beBytes 32 (beValue addressBytes)
                   ++ beBytes 32 (EncodeSingle.tf_amount exampleTransfer)).
Proof.
  split; [reflexivity|]. split; [vm_compute; reflexivity|].
  split; [vm_compute; split; [discriminate | reflexivity]|].
  apply (encodeSingle_erc20_roundtrip exampleTransfer).
  - reflexivity.
  - vm_compute. reflexivity.
  - vm_compute. split; [discriminate | reflexivity].
Defined.



(** C8. Whatever the transactions, provided they pack: with an empty
    string for the relay address the result goes to the built-in multiSend
    contract address, as it does with no address at all; a non-empty
    address is used as it is. *)
Theorem encodeMultiSend_relay_fallback (transactions : list TransactionInput)
  (packed : list (list byte)) :
  Forall2 (λ tx bs, encodePacked tx = Some (hexlify bs)) transactions packed →
  (∃ m, encodeMultiSend transactions (Some "") = Some m
        ∧ to m = MULTI_SEND_CONTRACT_ADDRESS)
  ∧ (∃ m, encodeMultiSend transactions None = Some m
          ∧ to m = MULTI_SEND_CONTRACT_ADDRESS)
  ∧ (∀ address : string,
       address ≠ "" →
       ∃ m, encodeMultiSend transactions (Some address) = Some m
            ∧ to m = address)
  ∧ MULTI_SEND_CONTRACT_ADDRESS = "0x8D29bE29923b68abfDD21e541b9374737B49cdAD".
Proof.
  intros Hpacked. repeat split.
  - eexists. split; [by apply encodeMultiSend_bytes | done].
  - eexists. split; [by apply encodeMultiSend_bytes | done].
  - intros address Hne. eexists. split; [by apply encodeMultiSend_bytes|].
    by destruct address.
Qed.

Lemma encodeMultiSend_relay_fallback_witness :
  Forall2 (λ tx bs, encodePacked tx = Some (hexlify bs))
    [exampleCall1]
    [ x00 :: default [] (arrayify (in_to exampleCall1))
          ++ beBytes 32 1 ++ beBytes 32 0 ]
  ∧ ((∃ m, encodeMultiSend [exampleCall1] (Some "") = Some m
           ∧ to m = MULTI_SEND_CONTRACT_ADDRESS)
     ∧ (∃ m, encodeMultiSend [exampleCall1] None = Some m
             ∧ to m = MULTI_SEND_CONTRACT_ADDRESS)
     ∧ (∀ address : string,
          address ≠ "" →
          ∃ m, encodeMultiSend [exampleCall1] (Some address) = Some m
               ∧ to m = address)
     ∧ MULTI_SEND_CONTRACT_ADDRESS = "0x8D29bE29923b68abfDD21e541b9374737B49cdAD").
Proof.
  assert (Forall2 (λ tx bs, encodePacked tx = Some (hexlify bs))
            [exampleCall1]
            [ x00 :: default [] (arrayify (in_to exampleCall1))
                  ++ beBytes 32 1 ++ beBytes 32 0 ]) as Hpacked.
  { constructor; [vm_compute; reflexivity | constructor]. }
  split; [exact Hpacked|].
  exact (encodeMultiSend_relay_fallback [exampleCall1] _ Hpacked).
Defined.

(** C9. On the empty list [encodeMultiSend] does not fail: it returns a
    DELEGATE_CALL to the relay address with value 0 whose data is the ABI
    encoding of [multiSend] applied to the empty byte string [0x]. *)
Theorem encodeMultiSend_empty (override : option string) :
  encodeMultiSend [] override
  = Some {| operation := DELEGATE_CALL;
            to := relayAddress override;
            value := 0;
            data := "0x8d80ff0a00000000000000000000000000000000000000000000000000000000000000200000000000000000000000000000000000000000000000000000000000000000" |}
  ∧ encodeFunctionData (new_Interface MULTI_SEND_ABI) "multiSend" [VString "0x"]
    = Some "0x8d80ff0a00000000000000000000000000000000000000000000000000000000000000200000000000000000000000000000000000000000000000000000000000000000".
Proof.
  split.
  - by rewrite (encodeMultiSend_bytes [] [] override) by constructor.
  - exact (multiSend_encodeFunctionData []).
Qed.

(** C10. Whatever the values of the transactions, provided they pack, the
    call that [encodeMultiSend] returns has value 0; the values of the
    transactions are in the records of the blob only. *)
Theorem encodeMultiSend_value_zero (transactions : list TransactionInput)
  (packed : list (list byte)) (override : option string) :
  Forall2 (λ tx bs, encodePacked tx = Some (hexlify bs)) transactions packed →
  ∃ m, encodeMultiSend transactions override = Some m
       ∧ value m = 0
       ∧ data m = multiSendCalldata (concat packed).
Proof.
  intros Hpacked. eexists. split; [by apply encodeMultiSend_bytes | done].
Qed.

Lemma encodeMultiSend_value_zero_witness :
  Forall2 (λ tx bs, encodePacked tx = Some (hexlify bs))
    [exampleCall1; exampleCall1]
    [ x00 :: default [] (arrayify (in_to exampleCall1))
          ++ beBytes 32 1 ++ beBytes 32 0;
      x00 :: default [] (arrayify (in_to exampleCall1))
          ++ beBytes 32 1 ++ beBytes 32 0 ]
  ∧ ∃ m, encodeMultiSend [exampleCall1; exampleCall1] None = Some m
         ∧ value m = 0
         ∧ data m = multiSendCalldata
                      (concat
                         [ x00 :: default [] (arrayify (in_to exampleCall1))
                               ++ beBytes 32 1 ++ beBytes 32 0;
                           x00 :: default [] (arrayify (in_to exampleCall1))
                               ++ beBytes 32 1 ++ beBytes 32 0 ]).
Proof.
  assert (Forall2 (λ tx bs, encodePacked tx = Some (hexlify bs))
            [exampleCall1; exampleCall1]
            [ x00 :: default [] (arrayify (in_to exampleCall1))
                  ++ beBytes 32 1 ++ beBytes 32 0;
              x00 :: default [] (arrayify (in_to exampleCall1))
                  ++ beBytes 32 1 ++ beBytes 32 0 ]) as Hpacked.
  { constructor; [vm_compute; reflexivity|].
    constructor; [vm_compute; reflexivity|]. constructor. }
  split; [exact Hpacked|].
  exact (encodeMultiSend_value_zero [exampleCall1; exampleCall1] _ None Hpacked).
Defined.

(* ===================================================================== *)
(** ** Packing one transaction: what is checked and what is not        *)
(* ===================================================================== *)

Section PackSteps.

Lemma toTwos_word (z : Z) : - 2 ^ 256 < z < 2 ^ 256 → toTwos z 256 = z mod 2 ^ 256.
Proof.
  intros Hz. unfold toTwos. destruct (Z.ltb_spec z 0).
  - rewrite lxor_ones by lia. rewrite Z.ones_equiv.
    apply Z.mod_unique with (q := -1); lia.
  - symmetry. apply Z.mod_small. lia.
Qed.

Lemma toTwos_overflow (z : Z) :
  z ≤ - 2 ^ 256 ∨ 2 ^ 256 ≤ z →
  (0 <=? toTwos z 256) && (toTwos z 256 <? 2 ^ 256) = false.
Proof.
  intros Hz. apply andb_false_iff. right. apply Z.ltb_ge.
  unfold toTwos. destruct (Z.ltb_spec z 0); [|lia].
  assert (2 ^ 256 ≤ Z.lxor (- z) (Z.ones 256)); [|lia].
  assert (0 ≤ Z.lxor (- z) (Z.ones 256)) as Hnn.
  { apply Z.lxor_nonneg. rewrite Z.ones_equiv. lia. }
  assert (1 ≤ Z.lxor (- z) (Z.ones 256) / 2 ^ 256) as Hq.
  { rewrite <- Z.shiftr_div_pow2 by lia. rewrite Z.shiftr_lxor.
    rewrite !Z.shiftr_div_pow2 by lia.
    replace (Z.ones 256 / 2 ^ 256) with 0
      by (symmetry; apply Z.div_small; rewrite Z.ones_equiv; lia).
    rewrite Z.lxor_0_r.
    apply Z.div_le_lower_bound; lia. }
  pose proof (Z.mul_div_le (Z.lxor (- z) (Z.ones 256)) (2 ^ 256) ltac:(lia)). nia.
Qed.

Lemma pack1_uint256 (z : Z) :
  pack1 (PUint 256) (VBigNumber z)
  = if (- 2 ^ 256 <? z) && (z <? 2 ^ 256)
    then Some (beBytes 32 (z mod 2 ^ 256)) else None.
Proof.
  unfold pack1. change (validSize 256) with true. cbv iota.
  cbn [BigNumber_from mbind option_bind].
  destruct (Z.ltb_spec (- 2 ^ 256) z), (Z.ltb_spec z (2 ^ 256)); cbn [andb].
  - rewrite toTwos_word by lia.
    pose proof (Z.mod_pos_bound z (2 ^ 256) ltac:(lia)).
    by rewrite in_range_true by lia.
  - by rewrite toTwos_overflow by lia.
  - by rewrite toTwos_overflow by lia.
  - by rewrite toTwos_overflow by lia.
Qed.

Lemma pack1_operation (op : Operation) :
  pack1 (PUint 8) (VNumber (Operation_value op)) = Some [Layout.operationByte op].
Proof. by destruct op. Qed.

(** [encodePacked], step by step. *)
Lemma encodePacked_steps (tx : TransactionInput) :
  encodePacked tx
  = (toBytes ← arrayify (to (coerceTransactionInput tx));
     valueWord ← pack1 (PUint 256) (VBigNumber (value (coerceTransactionInput tx)));
     lengthWord ← pack1 (PUint 256)
                    (from_option VNumber VNull
                       (hexDataLength (data (coerceTransactionInput tx))));
     dataBytes ← arrayify (data (coerceTransactionInput tx));
     Some (hexlify (Layout.operationByte (operation (coerceTransactionInput tx))
                    :: toBytes ++ valueWord ++ lengthWord ++ dataBytes))).
Proof.
  unfold encodePacked. generalize (coerceTransactionInput tx). intros m.
  rewrite Operation_or_CALL, value_or_zero.
  unfold pack. cbn [length Nat.eqb zip zip_with mapM].
  rewrite pack1_operation. cbn [mbind option_bind].
  change (pack1 PAddress (VString (to m))) with (arrayify (to m)).
  change (pack1 PBytes (VString (data m))) with (arrayify (data m)).
  destruct (arrayify (to m)) as [toBytes|]; [|done]. cbn [mbind option_bind].
  destruct (pack1 (PUint 256) (VBigNumber (value m))) as [valueWord|]; [|done].
  cbn [mbind option_bind].
  destruct (pack1 (PUint 256) _) as [lengthWord|]; [|done].
  cbn [mbind option_bind].
  destruct (arrayify (data m)) as [dataBytes|]; [|done].
  cbn [mbind option_bind mret option_ret concat app]. by rewrite app_nil_r.
Qed.

Lemma pack1_dataLength (data : string) (dataBytes : list byte) :
  arrayify data = Some dataBytes →
  Z.of_nat (String.length data) < MAX_SAFE →
  pack1 (PUint 256) (from_option VNumber VNull (hexDataLength data))
  = Some (beBytes 32 (Z.of_nat (length dataBytes))).
Proof.
  intros Hdata Hlen. rewrite (hexDataLength_arrayify _ _ Hdata). cbn [from_option].
  apply arrayify_Some in Hdata as [_ Hl].
  unfold MAX_SAFE in *.
  apply pack1_uint; [done | | lia].
  apply BigNumber_from_number. unfold MAX_SAFE. lia.
Qed.

Lemma length_pack1_uint (bits : Z) (v : Value) (word : list byte) :
  pack1 (PUint bits) v = Some word → length word = Z.to_nat (bits / 8).
Proof.
  unfold pack1. destruct (validSize bits); [|done].
  destruct (BigNumber_from v) as [z|]; [|done]. cbn [mbind option_bind].
  case_match; [|done]. intros <-%(inj Some). apply length_beBytes.
Qed.

End PackSteps.



(** X2. A negative value above -2^256 is not refused: [encodePacked]
    writes its two's complement, so the value word of the record is
    2^256 + v, and the record is the one of a transaction with that
    value. *)
Theorem encodePacked_negative_value (tx : TransactionInput) (v : Z)
  (toBytes dataBytes : list byte) :
  in_value tx = Some v → - 2 ^ 256 < v < 0 →
  arrayify (in_to tx) = Some toBytes →
  arrayify (data (coerceTransactionInput tx)) = Some dataBytes →
  Z.of_nat (String.length (data (coerceTransactionInput tx))) < MAX_SAFE →
  encodePacked tx
  = Some (hexlify (Layout.operationByte (operation (coerceTransactionInput tx))
                   :: toBytes
                   ++ beBytes 32 (2 ^ 256 + v)
                   ++ beBytes 32 (Z.of_nat (length dataBytes))
                   ++ dataBytes))
  ∧ beValue (beBytes 32 (2 ^ 256 + v)) = 2 ^ 256 + v
  ∧ encodePacked (withValue tx (2 ^ 256 + v)) = encodePacked tx.
Proof.
  intros Hv Hneg Hto Hdata Hlen.
  assert (∀ w, w ≠ 0 → - 2 ^ 256 < w < 2 ^ 256 → w mod 2 ^ 256 = 2 ^ 256 + v →
          in_value tx = Some w ∨ w = 2 ^ 256 + v →
          encodePacked (withValue tx w)
          = Some (hexlify (Layout.operationByte (operation (coerceTransactionInput tx))
                           :: toBytes
                           ++ beBytes 32 (2 ^ 256 + v)
                           ++ beBytes 32 (Z.of_nat (length dataBytes))
                           ++ dataBytes))) as Hpack.
  { intros w Hw0 Hw Hmod _. rewrite encodePacked_steps.
    unfold withValue, coerceTransactionInput in *.
    cbn [to value data operation in_to in_value in_data in_operation] in *.
    rewrite Hto, Hdata. cbn [mbind option_bind].
    assert (js_or (Some w) 0 = w) as ->.
    { unfold js_or, truthy, truthy_Z. by destruct (Z.eqb_spec w 0). }
    rewrite pack1_uint256, !(proj2 (Z.ltb_lt _ _)) by lia. cbn [andb mbind option_bind].
    rewrite (pack1_dataLength _ dataBytes) by done. cbn [mbind option_bind].
    by rewrite Hmod. }
  assert (withValue tx v = tx) as Hsame.
  { destruct tx as [op t val d]. cbn in Hv. by subst val. }
  split; [|split].
  - rewrite <- Hsame at 1. apply Hpack; [lia | lia | | by left].
    symmetry. apply Z.mod_unique with (q := -1); lia.
  - apply word_value. lia.
  - rewrite <- Hsame at 2. rewrite !Hpack; [done | lia | lia | | by left | lia | lia | | by right].
    + symmetry. apply Z.mod_unique with (q := -1); lia.
    + apply Z.mod_small. lia.
Qed.

Lemma encodePacked_negative_value_witness :
  in_value exampleNegativeValue = Some (-1)
  ∧ - 2 ^ 256 < -1 < 0
  ∧ arrayify (in_to exampleNegativeValue)
    = Some (default [] (arrayify (in_to exampleNegativeValue)))
  ∧ arrayify (data (coerceTransactionInput exampleNegativeValue)) = Some []
  ∧ Z.of_nat (String.length (data (coerceTransactionInput exampleNegativeValue)))
    < MAX_SAFE
  ∧ (encodePacked exampleNegativeValue
     = Some (hexlify (Layout.operationByte
                        (operation (coerceTransactionInput exampleNegativeValue))
                      :: default [] (arrayify (in_to exampleNegativeValue))
                      ++ beBytes 32 (2 ^ 256 + -1)
                      ++ beBytes 32 (Z.of_nat (length ([] : list byte)))
                      ++ []))
     ∧ beValue (beBytes 32 (2 ^ 256 + -1)) = 2 ^ 256 + -1
     ∧ encodePacked (withValue exampleNegativeValue (2 ^ 256 + -1))
       = encodePacked exampleNegativeValue).
Proof.
  split; [reflexivity|]. split; [vm_compute; split; reflexivity|].
  split; [vm_compute; reflexivity|]. split; [reflexivity|].
  split; [vm_compute; reflexivity|].
  apply (encodePacked_negative_value exampleNegativeValue (-1)).
  - reflexivity.
  - vm_compute. split; reflexivity.
  - vm_compute. reflexivity.
  - reflexivity.
  - vm_compute. reflexivity.
Defined.

(** X3. [encodePacked] neither pads nor checks [to]: a record that packs
    is 1 + len(to) + 32 + 32 + len(data) bytes long, whatever the byte
    length of [to]. *)
Theorem encodePacked_length (tx : TransactionInput) (packed : string) :
  encodePacked tx = Some packed →
  ∃ toLength dataLength : Z,
    hexDataLength (to (coerceTransactionInput tx)) = Some toLength
    ∧ hexDataLength (data (coerceTransactionInput tx)) = Some dataLength
    ∧ hexDataLength packed = Some (1 + toLength + 32 + 32 + dataLength).
Proof.
  rewrite encodePacked_steps.
  destruct (arrayify (to (coerceTransactionInput tx))) as [toBytes|] eqn:Hto; [|done].
  cbn [mbind option_bind].
  destruct (pack1 (PUint 256) (VBigNumber _)) as [valueWord|] eqn:Hvalue; [|done].
  cbn [mbind option_bind].
  destruct (pack1 (PUint 256) (from_option _ _ _)) as [lengthWord|] eqn:Hlength; [|done].
  cbn [mbind option_bind].
  destruct (arrayify (data (coerceTransactionInput tx))) as [dataBytes|] eqn:Hdata; [|done].
  cbn [mbind option_bind]. intros <-%(inj Some).
  exists (Z.of_nat (length toBytes)), (Z.of_nat (length dataBytes)).
  split; [by apply hexDataLength_arrayify|].
  split; [by apply hexDataLength_arrayify|].
  erewrite hexDataLength_arrayify; [|apply arrayify_hexlify].
  cbn [length]. rewrite !length_app.
  rewrite (length_pack1_uint _ _ _ Hvalue), (length_pack1_uint _ _ _ Hlength).
  f_equal. change (Z.to_nat (256 / 8)) with 32%nat. lia.
Qed.

Lemma encodePacked_length_witness :
  encodePacked exampleShortAddress
  = Some (hexlify (x00 :: [x12; x34] ++ beBytes 32 0 ++ beBytes 32 0))
  ∧ ∃ toLength dataLength : Z,
      hexDataLength (to (coerceTransactionInput exampleShortAddress)) = Some toLength
      ∧ hexDataLength (data (coerceTransactionInput exampleShortAddress))
        = Some dataLength
      ∧ hexDataLength (hexlify (x00 :: [x12; x34] ++ beBytes 32 0 ++ beBytes 32 0))
        = Some (1 + toLength + 32 + 32 + dataLength).
Proof.
  split; [vm_compute; reflexivity|].
  apply (encodePacked_length exampleShortAddress). vm_compute. reflexivity.
Defined.

(* ===================================================================== *)
(** ** Batches: failure, composition, size and unique reading          *)
(* ===================================================================== *)

Section BatchShape.

Lemma packs_all (transactions : list TransactionInput) :
  Forall (λ tx, is_Some (encodePacked tx)) transactions →
  ∃ packed, Forall2 (λ tx bs, encodePacked tx = Some (hexlify bs)) transactions packed.
Proof.
  induction 1 as [|tx transactions [s Hs] _ [packed IH]].
  - exists []. constructor.
  - destruct (encodePacked_Some_hexlify _ _ Hs) as [bs ->].
    exists (bs :: packed). by constructor.
Qed.

Lemma mapM_encodePacked_None (transactions : list TransactionInput) :
  mapM encodePacked transactions = None
  ↔ Exists (λ tx, encodePacked tx = None) transactions.
Proof.
  induction transactions as [|tx transactions IH]; cbn [mapM].
  - split; [done | by intros ?%Exists_nil].
  - rewrite Exists_cons. destruct (encodePacked tx) as [s|]; cbn [mbind option_bind].
    + destruct (mapM encodePacked transactions) as [l|]; cbn [mbind option_bind mret option_ret].
      * split; [done|]. intros [?|H]; [done|]. by apply IH in H.
      * split; [|done]. intros _. right. by apply IH.
    + split; [by left | done].
Qed.

Lemma encodeMultiSend_None (transactions : list TransactionInput)
  (override : option string) :
  encodeMultiSend transactions override = None
  ↔ Exists (λ tx, encodePacked tx = None) transactions.
Proof.
  split.
  - intros Hnone. apply mapM_encodePacked_None.
    destruct (mapM encodePacked transactions) as [l|] eqn:Hl; [|done].
    exfalso. apply mapM_Some in Hl.
    destruct (packs_all transactions) as [packed Hpacked].
    { clear -Hl. induction Hl; constructor; eauto. }
    by rewrite (encodeMultiSend_bytes _ _ _ Hpacked) in Hnone.
  - intros H%mapM_encodePacked_None. unfold encodeMultiSend. by rewrite H.
Qed.

Lemma encodeMultiSend_Some_packed (transactions : list TransactionInput)
  (override : option string) (m : ModuleTransaction) :
  encodeMultiSend transactions override = Some m →
  ∃ packed,
    Forall2 (λ tx bs, encodePacked tx = Some (hexlify bs)) transactions packed.
Proof.
  intros Hm. apply packs_all. apply Forall_forall. intros tx Htx.
  apply not_eq_None_Some. intros Hnone.
  assert (encodeMultiSend transactions override = None) as Hfail; [|congruence].
  apply encodeMultiSend_None. apply Exists_exists. eauto.
Qed.

Lemma hexlify_inj (a b : list byte) : hexlify a = hexlify b → a = b.
Proof.
  intros H. apply (f_equal arrayify) in H. rewrite !arrayify_hexlify in H.
  by apply (inj Some) in H.
Qed.

Lemma writeBytes_take (bs : list byte) : take (length bs) (writeBytes bs) = bs.
Proof. unfold writeBytes. by rewrite take_app_length. Qed.

Lemma multiSendCalldata_inj (a b : list byte) :
  multiSendCalldata a = multiSendCalldata b → a = b.
Proof.
  unfold multiSendCalldata. intros H%hexlify_inj.
  apply app_inv_head in H. apply app_inv_head in H.
  apply app_inj_1 in H as [Hlen Hbytes]; [|by rewrite !length_beBytes].
  assert (length a = length b) as Hsame.
  { apply (f_equal beValue) in Hlen. rewrite !beValue_beBytes in Hlen.
    apply (f_equal (@length byte)) in Hbytes. rewrite !length_writeBytes in Hbytes.
    change (256 ^ Z.of_nat 32) with (2 ^ 256) in Hlen.
    assert (Z.of_nat (length a) - Z.of_nat (length b) < 32
            ∧ Z.of_nat (length b) - Z.of_nat (length a) < 32) as [? ?].
    { pose proof (Nat.div_mod_eq (length a + 31) 32).
      pose proof (Nat.div_mod_eq (length b + 31) 32).
      pose proof (Nat.mod_upper_bound (length a + 31) 32).
      pose proof (Nat.mod_upper_bound (length b + 31) 32). lia. }
    destruct (Z.le_gt_cases (Z.of_nat (length a)) (Z.of_nat (length b))).
    - assert ((Z.of_nat (length b) - Z.of_nat (length a)) mod 2 ^ 256 = 0) as Hd.
      { rewrite Zminus_mod, Hlen, Z.sub_diag. done. }
      rewrite Z.mod_small in Hd by lia. lia.
    - assert ((Z.of_nat (length a) - Z.of_nat (length b)) mod 2 ^ 256 = 0) as Hd.
      { rewrite Zminus_mod, Hlen, Z.sub_diag. done. }
      rewrite Z.mod_small in Hd by lia. lia. }
  rewrite <- (writeBytes_take a), <- (writeBytes_take b). by rewrite Hbytes, Hsame.
Qed.

End BatchShape.

(** X4. [encodeMultiSend] returns exactly when every transaction of the
    list packs: it throws as soon as [encodePacked] throws on one of them,
    and for no other reason. *)
Theorem encodeMultiSend_defined_iff (transactions : list TransactionInput)
  (override : option string) :
  is_Some (encodeMultiSend transactions override)
  ↔ Forall (λ tx, is_Some (encodePacked tx)) transactions.
Proof.
  rewrite <- not_eq_None_Some, encodeMultiSend_None, <- Forall_Exists_neg.
  apply Forall_proper; [|done]. intros tx. by rewrite not_eq_None_Some.
Qed.

(** X5. Batches compose by concatenation: when two lists encode, so does
    the one followed by the other, to the same relay with the same
    operation and value, and the blob it hands to [multiSend] is the blob
    of the first followed by the blob of the second. *)
Theorem encodeMultiSend_app (xs ys : list TransactionInput)
  (override : option string) (mx my : ModuleTransaction) :
  encodeMultiSend xs override = Some mx →
  encodeMultiSend ys override = Some my →
  ∃ (blobX blobY : list byte) (m : ModuleTransaction),
    encodeFunctionData (new_Interface MULTI_SEND_ABI) "multiSend"
      [VString (hexlify blobX)] = Some (data mx)
    ∧ encodeFunctionData (new_Interface MULTI_SEND_ABI) "multiSend"
        [VString (hexlify blobY)] = Some (data my)
    ∧ encodeMultiSend (xs ++ ys) override = Some m
    ∧ encodeFunctionData (new_Interface MULTI_SEND_ABI) "multiSend"
        [VString (hexlify (blobX ++ blobY))] = Some (data m)
    ∧ operation m = operation mx ∧ to m = to mx ∧ value m = value mx.
Proof.
  intros Hx Hy.
  destruct (encodeMultiSend_Some_packed _ _ _ Hx) as [px Hpx].
  destruct (encodeMultiSend_Some_packed _ _ _ Hy) as [py Hpy].
  rewrite (encodeMultiSend_bytes _ _ _ Hpx) in Hx.
  rewrite (encodeMultiSend_bytes _ _ _ Hpy) in Hy.
  apply (inj Some) in Hx, Hy. subst mx my.
  exists (concat px), (concat py). eexists.
  split; [apply multiSend_encodeFunctionData|].
  split; [apply multiSend_encodeFunctionData|].
  split; [apply (encodeMultiSend_bytes _ (px ++ py)); by apply Forall2_app|].
  cbn [data operation to value]. rewrite concat_app.
  split; [apply multiSend_encodeFunctionData | done].
Qed.

Lemma encodeMultiSend_app_witness :
  encodeMultiSend [exampleCall1] None
  = Some {| operation := DELEGATE_CALL;
            to := MULTI_SEND_CONTRACT_ADDRESS;
            value := 0;
            data := multiSendCalldata
                      (x00 :: default [] (arrayify (in_to exampleCall1))
                           ++ beBytes 32 1 ++ beBytes 32 0) |}
  ∧ encodeMultiSend [exampleCall2] None
    = Some {| operation := DELEGATE_CALL;
              to := MULTI_SEND_CONTRACT_ADDRESS;
              value := 0;
              data := multiSendCalldata
                        (x00 :: default [] (arrayify (in_to exampleCall2))
                             ++ beBytes 32 0 ++ beBytes 32 2 ++ [x12; x34]) |}
  ∧ ∃ (blobX blobY : list byte) (m : ModuleTransaction),
      encodeFunctionData (new_Interface MULTI_SEND_ABI) "multiSend"
        [VString (hexlify blobX)]
      = Some (multiSendCalldata
                (x00 :: default [] (arrayify (in_to exampleCall1))
                     ++ beBytes 32 1 ++ beBytes 32 0))
      ∧ encodeFunctionData (new_Interface MULTI_SEND_ABI) "multiSend"
          [VString (hexlify blobY)]
        = Some (multiSendCalldata
                  (x00 :: default [] (arrayify (in_to exampleCall2))
                       ++ beBytes 32 0 ++ beBytes 32 2 ++ [x12; x34]))
      ∧ encodeMultiSend ([exampleCall1] ++ [exampleCall2]) None = Some m
      ∧ encodeFunctionData (new_Interface MULTI_SEND_ABI) "multiSend"
          [VString (hexlify (blobX ++ blobY))] = Some (data m)
      ∧ operation m = DELEGATE_CALL
      ∧ to m = MULTI_SEND_CONTRACT_ADDRESS
      ∧ value m = 0.
Proof.
  split; [vm_compute; reflexivity|]. split; [vm_compute; reflexivity|].
  apply (encodeMultiSend_app [exampleCall1] [exampleCall2] None
           {| operation := DELEGATE_CALL;
              to := MULTI_SEND_CONTRACT_ADDRESS;
              value := 0;
              data := multiSendCalldata
                        (x00 :: default [] (arrayify (in_to exampleCall1))
                             ++ beBytes 32 1 ++ beBytes 32 0) |}
           {| operation := DELEGATE_CALL;
              to := MULTI_SEND_CONTRACT_ADDRESS;
              value := 0;
              data := multiSendCalldata
                        (x00 :: default [] (arrayify (in_to exampleCall2))
                             ++ beBytes 32 0 ++ beBytes 32 2 ++ [x12; x34]) |});
    vm_compute; reflexivity.
Defined.

(** X6. For transactions with well-formed fields the data of the batch
    is 4 + 32 + 32 bytes and the blob padded to whole words, the blob
    taking 85 bytes and the data bytes for each transaction. *)
Theorem encodeMultiSend_calldata_length (transactions : list TransactionInput)
  (override : option string) :
  forallb validInput transactions = true →
  ∃ m : ModuleTransaction,
    encodeMultiSend transactions override = Some m
    ∧ hexDataLength (data m)
      = Some (Z.of_nat (4 + 32 + 32
                        + (sum_list (packedLength <$> transactions) + 31) / 32 * 32)).
Proof.
  intros Hvalid. destruct (validInputs_packed _ Hvalid) as [records Hrecords].
  eexists. split.
  { apply (encodeMultiSend_bytes _ (Layout.serialize <$> records)).
    apply Forall2_fmap_r. eapply Forall2_impl; [exact Hrecords|]. by intros tx r [? _]. }
  cbn [data]. unfold multiSendCalldata.
  erewrite hexDataLength_arrayify; [|apply arrayify_hexlify].
  rewrite !length_app, !length_beBytes, length_writeBytes. cbn [length].
  do 2 f_equal.
  assert (length (concat (Layout.serialize <$> records))
          = sum_list (packedLength <$> transactions)) as ->; [|lia].
  clear Hvalid. induction Hrecords as [|tx r transactions records Hr _ IH]; [done|].
  rewrite !fmap_cons. cbn [concat sum_list sum_list_with].
  rewrite length_app, IH. f_equal.
  destruct Hr as (_ & [Hto _] & _ & _ & _ & Hdata).
  rewrite length_serialize by done. unfold packedLength.
  apply arrayify_Some in Hdata as [_ ->].
  replace (2 + 2 * length (Layout.rec_data r) - 2)%nat
    with (length (Layout.rec_data r) * 2)%nat by lia.
  by rewrite Nat.div_mul.
Qed.

Lemma encodeMultiSend_calldata_length_witness :
  forallb validInput [exampleCall1; exampleCall2] = true
  ∧ ∃ m : ModuleTransaction,
      encodeMultiSend [exampleCall1; exampleCall2] None = Some m
      ∧ hexDataLength (data m)
        = Some (Z.of_nat (4 + 32 + 32
                          + (sum_list (packedLength <$> [exampleCall1; exampleCall2])
                             + 31) / 32 * 32)).
Proof.
  split; [vm_compute; reflexivity|].
  apply (encodeMultiSend_calldata_length [exampleCall1; exampleCall2] None).
  vm_compute. reflexivity.
Defined.

(** X7. The data of a batch tells the calls apart: two lists of
    transactions with well-formed fields whose batches have the same data
    have the same length and, position by position, the same operation,
    the same bytes of [to], the same value and the same data bytes,
    whatever the relay addresses. *)
Theorem encodeMultiSend_injective (xs ys : list TransactionInput)
  (overrideX overrideY : option string) (mx my : ModuleTransaction) :
  forallb validInput xs = true → forallb validInput ys = true →
  encodeMultiSend xs overrideX = Some mx →
  encodeMultiSend ys overrideY = Some my →
  data mx = data my →
  Forall2 (λ x y,
             operation (coerceTransactionInput x) = operation (coerceTransactionInput y)
             ∧ arrayify (to (coerceTransactionInput x))
               = arrayify (to (coerceTransactionInput y))
             ∧ value (coerceTransactionInput x) = value (coerceTransactionInput y)
             ∧ arrayify (data (coerceTransactionInput x))
               = arrayify (data (coerceTransactionInput y)))
          xs ys.
Proof.
  intros Hvx Hvy Hx Hy Hsame.
  destruct (validInputs_packed _ Hvx) as [rx Hrx].
  destruct (validInputs_packed _ Hvy) as [ry Hry].
  rewrite (encodeMultiSend_bytes _ (Layout.serialize <$> rx)) in Hx.
  2: { apply Forall2_fmap_r. eapply Forall2_impl; [exact Hrx|]. by intros tx r [? _]. }
  rewrite (encodeMultiSend_bytes _ (Layout.serialize <$> ry)) in Hy.
  2: { apply Forall2_fmap_r. eapply Forall2_impl; [exact Hry|]. by intros tx r [? _]. }
  apply (inj Some) in Hx, Hy. subst mx my. cbn [data] in Hsame.
  apply multiSendCalldata_inj in Hsame.
  assert (rx = ry) as <-.
  { apply (inj Some). rewrite <- (splitRecords_serialize rx), Hsame.
    - apply splitRecords_serialize.
      clear -Hry. induction Hry; constructor; [tauto | done].
    - clear -Hrx. induction Hrx; constructor; [tauto | done]. }
  clear Hsame Hvx Hvy. revert ys Hry.
  induction Hrx as [|x r xs rx Hr _ IH]; intros ys Hry.
  - inversion Hry. constructor.
  - inversion Hry as [|y r' ys' rx' Hr' Hry']; subst. constructor; [|by apply IH].
    destruct Hr as (_ & _ & Hop & Hto & Hvalue & Hdata).
    destruct Hr' as (_ & _ & Hop' & Hto' & Hvalue' & Hdata').
    repeat split; congruence.
Qed.

Lemma encodeMultiSend_injective_witness :
  forallb validInput [exampleCall1] = true
  ∧ forallb validInput [exampleCall1Respelled] = true
  ∧ encodeMultiSend [exampleCall1] None
    = Some {| operation := DELEGATE_CALL;
              to := MULTI_SEND_CONTRACT_ADDRESS;
              value := 0;
              data := multiSendCalldata
                        (x00 :: default [] (arrayify (in_to exampleCall1))
                             ++ beBytes 32 1 ++ beBytes 32 0) |}
  ∧ encodeMultiSend [exampleCall1Respelled] (Some "0xAA00000000000000000000000000000000000002")
    = Some {| operation := DELEGATE_CALL;
              to := "0xAA00000000000000000000000000000000000002";
              value := 0;
              data := multiSendCalldata
                        (x00 :: default [] (arrayify (in_to exampleCall1))
                             ++ beBytes 32 1 ++ beBytes 32 0) |}
  ∧ Forall2 (λ x y,
               operation (coerceTransactionInput x) = operation (coerceTransactionInput y)
               ∧ arrayify (to (coerceTransactionInput x))
                 = arrayify (to (coerceTransactionInput y))
               ∧ value (coerceTransactionInput x) = value (coerceTransactionInput y)
               ∧ arrayify (data (coerceTransactionInput x))
                 = arrayify (data (coerceTransactionInput y)))
            [exampleCall1] [exampleCall1Respelled].
Proof.
  split; [vm_compute; reflexivity|]. split; [vm_compute; reflexivity|].
  split; [vm_compute; reflexivity|]. split; [vm_compute; reflexivity|].
  apply (encodeMultiSend_injective [exampleCall1] [exampleCall1Respelled] None
           (Some "0xAA00000000000000000000000000000000000002")
           {| operation := DELEGATE_CALL;
              to := MULTI_SEND_CONTRACT_ADDRESS;
              value := 0;
              data := multiSendCalldata
                        (x00 :: default [] (arrayify (in_to exampleCall1))
                             ++ beBytes 32 1 ++ beBytes 32 0) |}
           {| operation := DELEGATE_CALL;
              to := "0xAA00000000000000000000000000000000000002";
              value := 0;
              data := multiSendCalldata
                        (x00 :: default [] (arrayify (in_to exampleCall1))
                             ++ beBytes 32 1 ++ beBytes 32 0) |});
    vm_compute; reflexivity.
Defined.

(* ===================================================================== *)
(** ** The dispatcher on batches                                       *)
(* ===================================================================== *)

(** X8. For a list of no transaction or of two and more that pack,
    [MultiSender.multiSend] calls [execTransactionFromModule] once, with
    the relay address given to the constructor (the built-in one when it
    is left out or empty), the value 0, the data of the batch and the
    operation DELEGATE_CALL. *)
Theorem multiSend_batch {Overrides Response : Type}
  (execTransactionFromModule :
     MultiSender → string → Z → string → Operation → Overrides → Response)
  (avatar : string) (override : option string)
  (transactions : list TransactionInput) (packed : list (list byte))
  (overrides : Overrides) :
  length transactions ≠ 1%nat →
  Forall2 (λ tx bs, encodePacked tx = Some (hexlify bs)) transactions packed →
  multiSend execTransactionFromModule (new_MultiSender avatar override)
    transactions overrides
  = Some (execTransactionFromModule (new_MultiSender avatar override)
            (relayAddress override) 0 (multiSendCalldata (concat packed))
            DELEGATE_CALL overrides)
  ∧ encodeFunctionData (new_Interface MULTI_SEND_ABI) "multiSend"
      [VString (hexlify (concat packed))]
    = Some (multiSendCalldata (concat packed)).
Proof.
  intros Hlen Hpacked. split; [|apply multiSend_encodeFunctionData].
  unfold multiSend. apply Nat.eqb_neq in Hlen. rewrite Hlen.
  rewrite (encodeMultiSend_bytes _ _ _ Hpacked).
  cbn [mbind option_bind to value data operation new_MultiSender
       multiSendContractAddress].
  by destruct override as [[|c s]|].
Qed.

Lemma multiSend_batch_witness :
  length [exampleCall1; exampleCall2] ≠ 1%nat
  ∧ Forall2 (λ tx bs, encodePacked tx = Some (hexlify bs))
      [exampleCall1; exampleCall2]
      [ x00 :: default [] (arrayify (in_to exampleCall1))
            ++ beBytes 32 1 ++ beBytes 32 0;
        x00 :: default [] (arrayify (in_to exampleCall2))
            ++ beBytes 32 0 ++ beBytes 32 2 ++ [x12; x34] ]
  ∧ (multiSend (λ (_ : MultiSender) to value data operation (_ : unit),
                  (to, value, data, operation))
       (new_MultiSender "0xAA00000000000000000000000000000000000003" (Some ""))
       [exampleCall1; exampleCall2] ()
     = Some (relayAddress (Some ""), 0,
             multiSendCalldata
               (concat
                  [ x00 :: default [] (arrayify (in_to exampleCall1))
                        ++ beBytes 32 1 ++ beBytes 32 0;
                    x00 :: default [] (arrayify (in_to exampleCall2))
                        ++ beBytes 32 0 ++ beBytes 32 2 ++ [x12; x34] ]),
             DELEGATE_CALL)
     ∧ encodeFunctionData (new_Interface MULTI_SEND_ABI) "multiSend"
         [VString (hexlify
            (concat
               [ x00 :: default [] (arrayify (in_to exampleCall1))
                     ++ beBytes 32 1 ++ beBytes 32 0;
                 x00 :: default [] (arrayify (in_to exampleCall2))
                     ++ beBytes 32 0 ++ beBytes 32 2 ++ [x12; x34] ]))]
       = Some (multiSendCalldata
                 (concat
                    [ x00 :: default [] (arrayify (in_to exampleCall1))
                          ++ beBytes 32 1 ++ beBytes 32 0;
                      x00 :: default [] (arrayify (in_to exampleCall2))
                          ++ beBytes 32 0 ++ beBytes 32 2 ++ [x12; x34] ]))).
Proof.
  assert (Forall2 (λ tx bs, encodePacked tx = Some (hexlify bs))
            [exampleCall1; exampleCall2]
            [ x00 :: default [] (arrayify (in_to exampleCall1))
                  ++ beBytes 32 1 ++ beBytes 32 0;
              x00 :: default [] (arrayify (in_to exampleCall2))
                  ++ beBytes 32 0 ++ beBytes 32 2 ++ [x12; x34] ]) as Hpacked.
  { constructor; [vm_compute; reflexivity|].
    constructor; [vm_compute; reflexivity|]. constructor. }
  split; [cbn [length]; lia|]. split; [exact Hpacked|].
  apply (multiSend_batch
           (λ (_ : MultiSender) to value data operation (_ : unit),
              (to, value, data, operation))
           "0xAA00000000000000000000000000000000000003" (Some "")
           [exampleCall1; exampleCall2]);
    [cbn [length]; lia | exact Hpacked].
Defined.

(** X9. [MultiSender.multiSend] throws before it reaches
    [execTransactionFromModule] exactly when the list is not of length one
    and one of its transactions does not pack: a single transaction is
    handed over unchecked. *)
Theorem multiSend_fails_iff {Overrides Response : Type}
  (execTransactionFromModule :
     MultiSender → string → Z → string → Operation → Overrides → Response)
  (this : MultiSender) (transactions : list TransactionInput)
  (overrides : Overrides) :
  multiSend execTransactionFromModule this transactions overrides = None
  ↔ length transactions ≠ 1%nat
    ∧ Exists (λ tx, encodePacked tx = None) transactions.
Proof.
  unfold multiSend. destruct (Nat.eqb_spec (length transactions) 1) as [Hone|Hmany].
  - destruct transactions as [|x [|]]; try done. cbn. split; [done | by intros [? _]].
  - rewrite <- (encodeMultiSend_None transactions
                  (Some (multiSendContractAddress this))).
    destruct (encodeMultiSend _ _); cbn [mbind option_bind].
    + split; [done | by intros [_ ?]].
    + split; [by intros _ | done].
Qed.

(* ===================================================================== *)
(** ** Transfers of collectibles                                       *)
(* ===================================================================== *)

Section CollectibleFacts.
Import EncodeSingle.

Lemma erc721_getFunction :
  getFunction erc721Interface "safeTransferFrom(address,address,uint256)"
  = Some {| fname := "safeTransferFrom";
            inputs := [ {| name := "_from"; type := TAddress |};
                        {| name := "_to"; type := TAddress |};
                        {| name := "_tokenId"; type := TUint 256 |} ] |}.
Proof. vm_compute. reflexivity. Qed.

Lemma erc721_sighash :
  sighashBytes {| fname := "safeTransferFrom";
                  inputs := [ {| name := "_from"; type := TAddress |};
                              {| name := "_to"; type := TAddress |};
                              {| name := "_tokenId"; type := TUint 256 |} ] |}
  = [x42; x84; x2e; x0e].
Proof. vm_compute. reflexivity. Qed.

Lemma encodeErc721Transfer_bytes (tx : TransferCollectibleTransactionInput)
  (a b : string) (as' bs : list byte) :
  getAddress (tc_from tx) = Some a → arrayify a = Some as' →
  getAddress (tc_to tx) = Some b → arrayify b = Some bs →
  0 ≤ tc_tokenId tx < 2 ^ 256 →
  encodeErc721Transfer tx
  = Some (hexlify ([x42; x84; x2e; x0e]
                   ++ beBytes 32 (beValue as') ++ beBytes 32 (beValue bs)
                   ++ beBytes 32 (tc_tokenId tx))).
Proof.
  intros Hfrom Ha Hto Hb Hid. unfold encodeErc721Transfer.
  erewrite encodeFunctionData_bytes; [| apply erc721_getFunction |].
  - by rewrite erc721_sighash.
  - unfold AbiCoder_encode, abiPack.
    cbn [inputs length Nat.eqb mapM _getCoder type mbind option_bind mret
         option_ret zip zip_with].
    change (validSize 256) with true. cbv iota.
    cbn [mbind option_bind mret option_ret length Nat.eqb zip zip_with mapM].
    rewrite (AddressCoder_encode (tc_from tx) a as' Hfrom Ha).
    rewrite (AddressCoder_encode (tc_to tx) b bs Hto Hb).
    destruct (NumberCoder_unsigned 256 (VBigNumber (tc_tokenId tx)) (tc_tokenId tx))
      as [-> _]; [done | done | done |].
    cbn [mbind option_bind mret option_ret dynamic AddressCoder NumberCoder].
    rewrite !packTails_cons_static.
    cbn [packHeads fmap list_fmap sum_list sum_list_with headLength fst snd].
    unfold packTails. cbn [filter list_filter fmap list_fmap concat].
    by rewrite !app_nil_r.
Qed.

End CollectibleFacts.

(** X10. A transfer of a collectible between two valid addresses, the
    token id fitting 256 bits, encodes to the collectible's contract as
    [to] and 0 as value; its data is the selector [42842e0e] and three
    words, 100 bytes, and decoding it against
    [safeTransferFrom(address,address,uint256)] gives back the two
    addresses (in their checksum spelling) and the token id. *)
Theorem encodeSingle_erc721_roundtrip
  (tx : EncodeSingle.TransferCollectibleTransactionInput) (a b : string) :
  getAddress (EncodeSingle.tc_from tx) = Some a →
  getAddress (EncodeSingle.tc_to tx) = Some b →
  0 ≤ EncodeSingle.tc_tokenId tx < 2 ^ 256 →
  ∃ (calldata : string) (fromBytes toBytes : list byte),
    EncodeSingle.encodeSingle (EncodeSingle.transferCollectible tx)
    = Some {| EncodeSingle.to := EncodeSingle.tc_address tx;
              EncodeSingle.value := 0;
              EncodeSingle.data := calldata |}
    ∧ decodeFunctionData EncodeSingle.erc721Interface
        "safeTransferFrom(address,address,uint256)" calldata
      = Some [VString a; VString b; VBigNumber (EncodeSingle.tc_tokenId tx)]
    ∧ arrayify a = Some fromBytes ∧ length fromBytes = 20%nat
    ∧ arrayify b = Some toBytes ∧ length toBytes = 20%nat
    ∧ calldata
      = hexlify ([x42; x84; x2e; x0e]
                 ++ beBytes 32 (beValue fromBytes)
                 ++ beBytes 32 (beValue toBytes)
                 ++ beBytes 32 (EncodeSingle.tc_tokenId tx))
    ∧ hexDataLength calldata = Some 100.
Proof.
  intros Hfrom Hto Hid.
  destruct (getAddress_bytes _ _ Hfrom) as (as' & Ha & Hlena & _).
  destruct (getAddress_bytes _ _ Hto) as (bs & Hb & Hlenb & _).
  pose proof (encodeErc721Transfer_bytes tx a b as' bs Hfrom Ha Hto Hb Hid) as Henc.
  eexists _, as', bs. split.
  { cbn [EncodeSingle.encodeSingle]. rewrite Henc. reflexivity. }
  split; [|split; [exact Ha|split; [exact Hlena|split; [exact Hb|split;
    [exact Hlenb|split; [reflexivity|]]]]]].
  - destruct (functionData_roundtrip EncodeSingle.erc721Interface
                "safeTransferFrom(address,address,uint256)" _
                [VString (EncodeSingle.tc_from tx); VString (EncodeSingle.tc_to tx);
                 VBigNumber (EncodeSingle.tc_tokenId tx)]
                [VString a; VString b; VBigNumber (EncodeSingle.tc_tokenId tx)]
                erc721_getFunction) as (data' & Hdata' & Hdecode).
    { constructor; [|constructor; [|constructor; [|constructor]]];
        cbn [inputs type canonical].
      - by rewrite Hfrom.
      - by rewrite Hto.
      - cbn [BigNumber_from mbind option_bind]. change (validSize 256) with true.
        cbn [andb]. by rewrite in_range_true. }
    unfold EncodeSingle.encodeErc721Transfer in Henc. rewrite Henc in Hdata'.
    apply (inj Some) in Hdata'. subst data'. apply Hdecode.
    rewrite length_hexlify, !length_app, !length_beBytes. cbn [length]. lia.
  - erewrite hexDataLength_arrayify; [|apply arrayify_hexlify].
    by rewrite !length_app, !length_beBytes.
Qed.

Lemma encodeSingle_erc721_roundtrip_witness :
  getAddress (EncodeSingle.tc_from exampleCollectible)
  = Some "0x8D29bE29923b68abfDD21e541b9374737B49cdAD"
  ∧ getAddress (EncodeSingle.tc_to exampleCollectible)
    = Some "0x6B175474E89094C44Da98b954EedeAC495271d0F"
  ∧ 0 ≤ EncodeSingle.tc_tokenId exampleCollectible < 2 ^ 256
  ∧ ∃ (calldata : string) (fromBytes toBytes : list byte),
      EncodeSingle.encodeSingle (EncodeSingle.transferCollectible exampleCollectible)
      = Some {| EncodeSingle.to := EncodeSingle.tc_address exampleCollectible;
                EncodeSingle.value := 0;
                EncodeSingle.data := calldata |}
      ∧ decodeFunctionData EncodeSingle.erc721Interface
          "safeTransferFrom(address,address,uint256)" calldata
        = Some [VString "0x8D29bE29923b68abfDD21e541b9374737B49cdAD";
                VString "0x6B175474E89094C44Da98b954EedeAC495271d0F";
                VBigNumber (EncodeSingle.tc_tokenId exampleCollectible)]
      ∧ arrayify "0x8D29bE29923b68abfDD21e541b9374737B49cdAD" = Some fromBytes
      ∧ length fromBytes = 20%nat
      ∧ arrayify "0x6B175474E89094C44Da98b954EedeAC495271d0F" = Some toBytes
      ∧ length toBytes = 20%nat
      ∧ calldata
        = hexlify ([x42; x84; x2e; x0e]
                   ++ beBytes 32 (beValue fromBytes)
                   ++ beBytes 32 (beValue toBytes)
                   ++ beBytes 32 (EncodeSingle.tc_tokenId exampleCollectible))
      ∧ hexDataLength calldata = Some 100.
Proof.
  split; [vm_compute; reflexivity|]. split; [vm_compute; reflexivity|].
  split; [vm_compute; split; [discriminate | reflexivity]|].
  apply (encodeSingle_erc721_roundtrip exampleCollectible).
  - vm_compute. reflexivity.
  - vm_compute. reflexivity.
  - vm_compute. split; [discriminate | reflexivity].
Defined.

(* ===================================================================== *)
(** ** When the single-call encoder throws                             *)
(* ===================================================================== *)

Section CompleteFacts.






End CompleteFacts.

Section TransferFacts.
Import EncodeSingle.





End TransferFacts.



Section CallFacts.
Import EncodeSingle.

Lemma new_Interface_elem (fragments : list FunctionFragment) (k : string)
  (f : FunctionFragment) :
  functions (new_Interface fragments) !! k = Some f → f ∈ fragments.
Proof.
  unfold new_Interface. cbn [functions].
  assert (∀ m : gmap string FunctionFragment,
            ∀ k f,
              fold_left (λ m f, match m !! format f with
                                | Some _ => m
                                | None => <[format f:=f]> m
                                end) fragments m !! k = Some f →
              m !! k = Some f ∨ f ∈ fragments) as H.
  { induction fragments as [|g fragments IH]; intros m k' f'; [by left|].
    cbn [fold_left]. intros [Hm|Hin]%IH; [|right; by constructor].
    destruct (m !! format g) eqn:Hg; [by left|].
    apply lookup_insert_Some in Hm as [[_ <-]|[_ ?]]; [right; by constructor | by left]. }
  intros [Hm|?]%H; [by rewrite lookup_empty in Hm | done].
Qed.

Lemma index_format (f : FunctionFragment) : is_Some (String.index 0 "(" (format f)).
Proof. unfold format. apply index_paren. Qed.

Lemma mapM_agree {A B} (g h : A → option B) (l : list A) :
  (∀ x, x ∈ l → g x = h x) → mapM g l = mapM h l.
Proof.
  induction l as [|x l IH]; intros H; [done|]. cbn [mapM].
  rewrite H by constructor. rewrite IH; [done|].
  intros y Hy. apply H. by constructor.
Qed.


Lemma encodeFunctionData_hexlify (iface : Interface) (sig : string)
  (values : list Value) (data : string) :
  encodeFunctionData iface sig values = Some data → ∃ bs, data = hexlify bs.
Proof.
  unfold encodeFunctionData. destruct (getFunction iface sig) as [f|]; [|done].
  cbn [mbind option_bind]. destruct (arrayify (getSighash f)); [|done].
  cbn [mbind option_bind]. destruct (_encodeParams (inputs f) values); [|done].
  cbn [mbind option_bind]. intros H%(inj Some). by eexists.
Qed.

End CallFacts.

(** X13. [encodeSingle] on a contract call throws when the function
    signature is not the signature of a function of the ABI; a bare
    function name, without the parameter types, never is. *)
Theorem encodeSingle_unknown_function
  (tx : EncodeSingle.CallContractTransactionInput) :
  String.index 0 "(" (EncodeSingle.cc_functionSignature tx) = None
  ∨ (∀ f, f ∈ EncodeSingle.cc_abi tx
          → format f ≠ EncodeSingle.cc_functionSignature tx) →
  EncodeSingle.encodeSingle (EncodeSingle.callContract tx) = None.
Proof.
  intros Hsig. cbn [EncodeSingle.encodeSingle]. unfold EncodeSingle.encodeFunctionCall.
  destruct (functions (new_Interface (EncodeSingle.cc_abi tx))
              !! EncodeSingle.cc_functionSignature tx) as [f|] eqn:Hf; [|done].
  exfalso. pose proof (new_Interface_keys _ _ _ Hf) as Hkey.
  destruct Hsig as [Hnone|Hnot].
  - destruct (index_format f) as [n Hn]. congruence.
  - apply (Hnot f); [by eapply new_Interface_elem | done].
Qed.

Lemma encodeSingle_unknown_function_witness :
  (String.index 0 "(" (EncodeSingle.cc_functionSignature exampleBareNameCall) = None
   ∨ (∀ f, f ∈ EncodeSingle.cc_abi exampleBareNameCall
           → format f ≠ EncodeSingle.cc_functionSignature exampleBareNameCall))
  ∧ EncodeSingle.encodeSingle (EncodeSingle.callContract exampleBareNameCall) = None.
Proof.
  split; [left; reflexivity|].
  apply (encodeSingle_unknown_function exampleBareNameCall). left. reflexivity.
Defined.


(** X15. [encodeFunctionCall] reads [inputValues] at the names of the
    declared parameters only: an entry under another name changes
    nothing. *)
Theorem encodeFunctionCall_ignores_undeclared
  (tx : EncodeSingle.CallContractTransactionInput) (f : FunctionFragment)
  (key : string) (v : Value) :
  functions (new_Interface (EncodeSingle.cc_abi tx))
    !! EncodeSingle.cc_functionSignature tx = Some f →
  key ∉ (name <$> inputs f) →
  EncodeSingle.encodeFunctionCall (withInputValue tx key v)
  = EncodeSingle.encodeFunctionCall tx.
Proof.
  intros Hf Hnames. unfold EncodeSingle.encodeFunctionCall, withInputValue.
  cbn [EncodeSingle.cc_abi EncodeSingle.cc_functionSignature
       EncodeSingle.cc_inputValues].
  rewrite Hf. cbn [mbind option_bind].
  erewrite mapM_agree; [reflexivity|].
  intros p Hp. cbn beta. rewrite lookup_insert_ne; [done|].
  intros Hkey. apply Hnames. rewrite Hkey. by apply list_elem_of_fmap_2.
Qed.

Lemma encodeFunctionCall_ignores_undeclared_witness :
  functions (new_Interface (EncodeSingle.cc_abi exampleContractCall))
    !! EncodeSingle.cc_functionSignature exampleContractCall
  = Some exampleFragment
  ∧ ("memo" ∉ (name <$> inputs exampleFragment))
  ∧ EncodeSingle.encodeFunctionCall
      (withInputValue exampleContractCall "memo" (VString "lunch"))
    = EncodeSingle.encodeFunctionCall exampleContractCall.
Proof.
  assert ("memo" ∉ (name <$> inputs exampleFragment)) as Hmemo.
  { apply (bool_decide_unpack _). vm_compute. exact I. }
  split; [vm_compute; reflexivity|]. split; [exact Hmemo|].
  apply (encodeFunctionCall_ignores_undeclared exampleContractCall exampleFragment);
    [vm_compute; reflexivity | exact Hmemo].
Defined.

(* ===================================================================== *)
(** ** The shape of the data of a contract call                        *)
(* ===================================================================== *)

Section AlignedFacts.







End AlignedFacts.



(* ===================================================================== *)
(** ** From single calls to a batch                                    *)
(* ===================================================================== *)

Section PipelineFacts.
Import EncodeSingle.

Lemma hexlify_or_0x (bs : list byte) : js_or (Some (hexlify bs)) "0x" = hexlify bs.
Proof. reflexivity. Qed.

Lemma data_or_0x (d : option string) : js_or (Some (js_or d "0x")) "0x" = js_or d "0x".
Proof. destruct d as [[|c s]|]; done. Qed.

(** The data of a meta transaction is never the empty string. *)
Lemma encodeSingle_data (tx : EncodeSingle.TransactionInput) (m : MetaTransaction) :
  encodeSingle tx = Some m → js_or (Some (data m)) "0x" = data m.
Proof.
  destruct tx as [tx|tx|tx|tx]; cbn [encodeSingle].
  - destruct (tf_token tx) as [token|].
    + destruct (encodeErc20Transfer tx) as [d|] eqn:Hd; [|done].
      cbn [mbind option_bind]. intros <-%(inj Some). cbn [data].
      unfold encodeErc20Transfer in Hd.
      destruct (encodeFunctionData_hexlify _ _ _ _ Hd) as [bs ->].
      apply hexlify_or_0x.
    + intros <-%(inj Some). reflexivity.
  - destruct (encodeErc721Transfer tx) as [d|] eqn:Hd; [|done].
    cbn [mbind option_bind]. intros <-%(inj Some). cbn [data].
    unfold encodeErc721Transfer in Hd.
    destruct (encodeFunctionData_hexlify _ _ _ _ Hd) as [bs ->].
    apply hexlify_or_0x.
  - destruct (encodeFunctionCall tx) as [d|] eqn:Hd; [|done].
    cbn [mbind option_bind]. intros <-%(inj Some). cbn [data].
    unfold encodeFunctionCall in Hd.
    destruct (functions _ !! _) as [f|]; [|done]. cbn [mbind option_bind] in Hd.
    destruct (mapM _ _) as [values|]; [|done]. cbn [mbind option_bind] in Hd.
    destruct (encodeFunctionData_hexlify _ _ _ _ Hd) as [bs ->].
    apply hexlify_or_0x.
  - intros <-%(inj Some). cbn [data]. apply data_or_0x.
Qed.

Lemma coerce_asInput (tx : EncodeSingle.TransactionInput) (m : MetaTransaction) :
  encodeSingle tx = Some m →
  coerceTransactionInput (asInput m)
  = {| MultiSend.operation := CALL;
       MultiSend.to := to m;
       MultiSend.value := value m;
       MultiSend.data := data m |}.
Proof.
  intros Hm. unfold coerceTransactionInput, asInput.
  cbn [in_operation in_to in_value in_data].
  by rewrite value_or_zero, (encodeSingle_data _ _ Hm).
Qed.

End PipelineFacts.

(** X17. The meta transactions of [encodeSingle], handed to
    [encodeMultiSend] as they are, come out as the records of the blob in
    their order: record i is a CALL with the bytes of [to], the value and
    the data bytes of meta transaction i. *)
Theorem encodeSingle_then_encodeMultiSend
  (intents : list EncodeSingle.TransactionInput)
  (metas : list EncodeSingle.MetaTransaction) (override : option string) :
  mapM EncodeSingle.encodeSingle intents = Some metas →
  forallb validInput (asInput <$> metas) = true →
  ∃ (m : ModuleTransaction) (blob : list byte)
    (records : list Layout.PackedRecord),
    encodeMultiSend (asInput <$> metas) override = Some m
    ∧ encodeFunctionData (new_Interface MULTI_SEND_ABI) "multiSend"
        [VString (hexlify blob)] = Some (data m)
    ∧ Layout.splitRecords blob = Some records
    ∧ Forall2 (λ meta r,
                 Layout.rec_operation r = CALL
                 ∧ arrayify (EncodeSingle.to meta) = Some (Layout.rec_to r)
                 ∧ Layout.rec_value r = EncodeSingle.value meta
                 ∧ arrayify (EncodeSingle.data meta) = Some (Layout.rec_data r))
              metas records.
Proof.
  intros Hmetas Hvalid.
  destruct (validInputs_packed _ Hvalid) as [records Hrecords].
  exists {| operation := DELEGATE_CALL;
            to := relayAddress override;
            value := 0;
            data := multiSendCalldata (concat (Layout.serialize <$> records)) |},
    (concat (Layout.serialize <$> records)), records.
  split.
  { apply encodeMultiSend_bytes. apply Forall2_fmap_r.
    eapply Forall2_impl; [exact Hrecords|]. by intros tx r [? _]. }
  split; [apply multiSend_encodeFunctionData|].
  split.
  { apply splitRecords_serialize.
    clear -Hrecords. induction Hrecords; constructor; [tauto | done]. }
  apply mapM_Some in Hmetas. apply Forall2_fmap_l in Hrecords.
  clear Hvalid. revert records Hrecords.
  induction Hmetas as [|tx meta intents metas Htx _ IH]; intros records Hrecords.
  - inversion Hrecords. constructor.
  - inversion Hrecords as [|? r ? records' Hr Hrecords']; subst.
    constructor; [|by apply IH].
    cbv beta delta [compose] in Hr.
    rewrite (coerce_asInput _ _ Htx) in Hr. cbn [operation to value data] in Hr.
    tauto.
Qed.

Lemma encodeSingle_then_encodeMultiSend_witness :
  mapM EncodeSingle.encodeSingle
    [exampleNativeTransfer; EncodeSingle.transferFunds exampleTransfer]
  = Some [ {| EncodeSingle.to := "0xAA00000000000000000000000000000000000001";
              EncodeSingle.value := 5;
              EncodeSingle.data := "0x" |};
           {| EncodeSingle.to := "0x6B175474E89094C44Da98b954EedeAC495271d0F";
              EncodeSingle.value := 0;
              EncodeSingle.data := "0xa9059cbb0000000000000000000000008d29be29923b68abfdd21e541b9374737b49cdad00000000000000000000000000000000000000000000000000000000000003e8" |} ]
  ∧ forallb validInput
      (asInput <$>
         [ {| EncodeSingle.to := "0xAA00000000000000000000000000000000000001";
              EncodeSingle.value := 5;
              EncodeSingle.data := "0x" |};
           {| EncodeSingle.to := "0x6B175474E89094C44Da98b954EedeAC495271d0F";
              EncodeSingle.value := 0;
              EncodeSingle.data := "0xa9059cbb0000000000000000000000008d29be29923b68abfdd21e541b9374737b49cdad00000000000000000000000000000000000000000000000000000000000003e8" |} ])
    = true
  ∧ ∃ (m : ModuleTransaction) (blob : list byte)
      (records : list Layout.PackedRecord),
      encodeMultiSend
        (asInput <$>
           [ {| EncodeSingle.to := "0xAA00000000000000000000000000000000000001";
                EncodeSingle.value := 5;
                EncodeSingle.data := "0x" |};
             {| EncodeSingle.to := "0x6B175474E89094C44Da98b954EedeAC495271d0F";
                EncodeSingle.value := 0;
                EncodeSingle.data := "0xa9059cbb0000000000000000000000008d29be29923b68abfdd21e541b9374737b49cdad00000000000000000000000000000000000000000000000000000000000003e8" |} ])
        None = Some m
      ∧ encodeFunctionData (new_Interface MULTI_SEND_ABI) "multiSend"
          [VString (hexlify blob)] = Some (data m)
      ∧ Layout.splitRecords blob = Some records
      ∧ Forall2 (λ meta r,
                   Layout.rec_operation r = CALL
                   ∧ arrayify (EncodeSingle.to meta) = Some (Layout.rec_to r)
                   ∧ Layout.rec_value r = EncodeSingle.value meta
                   ∧ arrayify (EncodeSingle.data meta) = Some (Layout.rec_data r))
                [ {| EncodeSingle.to := "0xAA00000000000000000000000000000000000001";
                     EncodeSingle.value := 5;
                     EncodeSingle.data := "0x" |};
                  {| EncodeSingle.to := "0x6B175474E89094C44Da98b954EedeAC495271d0F";
                     EncodeSingle.value := 0;
                     EncodeSingle.data := "0xa9059cbb0000000000000000000000008d29be29923b68abfdd21e541b9374737b49cdad00000000000000000000000000000000000000000000000000000000000003e8" |} ]
                records.
Proof.
  split; [vm_compute; reflexivity|]. split; [vm_compute; reflexivity|].
  apply (encodeSingle_then_encodeMultiSend
           [exampleNativeTransfer; EncodeSingle.transferFunds exampleTransfer]);
    vm_compute; reflexivity.
Defined.

(* ===================================================================== *)
(** ** Checks of the model on known values                               *)
(* ===================================================================== *)

(** Keccak-256 of the empty string. *)
Example keccak256_empty :
  bytesHex (Keccak.keccak256 [])
  = "c5d2460186f7233c927e7db2dcc703c0e500b653ca82273b7bfad8045d85a470".
Proof. vm_compute. reflexivity. Qed.

(** The selectors of the three functions the source names. *)
Example selectors :
  getSighash <$> getFunction EncodeSingle.erc20Interface "transfer(address,uint256)"
  = Some "0xa9059cbb"
  ∧ getSighash <$> getFunction EncodeSingle.erc721Interface
                     "safeTransferFrom(address,address,uint256)"
    = Some "0x42842e0e"
  ∧ getSighash <$> getFunction (new_Interface MULTI_SEND_ABI) "multiSend"
    = Some "0x8d80ff0a".
Proof. repeat split; vm_compute; reflexivity. Qed.

(** The address constant of the source is in its checksum spelling, which
    [getAddress] gives for the same digits in lower case and refuses to
    take with a letter in the wrong case. *)
Example checksum_of_relay_address :
  getAddress "0x8d29be29923b68abfdd21e541b9374737b49cdad"
  = Some MULTI_SEND_CONTRACT_ADDRESS
  ∧ getAddress MULTI_SEND_CONTRACT_ADDRESS = Some MULTI_SEND_CONTRACT_ADDRESS
  ∧ getAddress "0x8D29bE29923b68abfDD21e541b9374737B49cdAd" = None.
Proof. repeat split; vm_compute; reflexivity. Qed.

(** The data of a transfer of 1000 tokens. *)
Example erc20_transfer_data :
  EncodeSingle.encodeSingle (EncodeSingle.transferFunds exampleTransfer)
  = Some {| EncodeSingle.to := "0x6B175474E89094C44Da98b954EedeAC495271d0F";
            EncodeSingle.value := 0;
            EncodeSingle.data := "0xa9059cbb0000000000000000000000008d29be29923b68abfdd21e541b9374737b49cdad00000000000000000000000000000000000000000000000000000000000003e8" |}.
Proof. vm_compute. reflexivity. Qed.

(** The example of section 8: the batch of the two raw calls is a call of
    the relay whose argument splits into the two calls, in their order. *)
Example batch_of_two_raw_calls :
  ∃ (m : ModuleTransaction) (blob : list byte),
    encodeMultiSend [exampleCall1; exampleCall2] None = Some m
    ∧ operation m = DELEGATE_CALL
    ∧ to m = MULTI_SEND_CONTRACT_ADDRESS
    ∧ decodeFunctionData (new_Interface MULTI_SEND_ABI) "multiSend" (data m)
      = Some [VString (hexlify blob)]
    ∧ Layout.splitRecords blob
      = Some [ {| Layout.rec_operation := CALL;
                  Layout.rec_to := default [] (arrayify (in_to exampleCall1));
                  Layout.rec_value := 1;
                  Layout.rec_data := [] |};
               {| Layout.rec_operation := CALL;
                  Layout.rec_to := default [] (arrayify (in_to exampleCall2));
                  Layout.rec_value := 0;
                  Layout.rec_data := [x12; x34] |} ].
Proof.
  exists (default (coerceTransactionInput exampleCall1)
            (encodeMultiSend [exampleCall1; exampleCall2] None)),
    (concat [ x00 :: default [] (arrayify (in_to exampleCall1))
                  ++ beBytes 32 1 ++ beBytes 32 0;
              x00 :: default [] (arrayify (in_to exampleCall2))
                  ++ beBytes 32 0 ++ beBytes 32 2 ++ [x12; x34] ]).
  repeat split; vm_compute; reflexivity.
Qed.
